(** * Slot reservation engine: the NestJS modules and the reservation core

    The first half of this development embeds the TypeScript classes of
    [src/modules] (SlotService, SlotController, BookingController,
    QueueController) together with the routing their decorators declare.
    The second half models the reservation core of the design document
    (Slot Registry, Reservation State Machine, Hold Store, Wait Queue,
    Expiration Scheduler, Reconciliation Sweep), for which the repository's
    sources hold no code. *)

From Stdlib Require Import ZArith.
From stdpp Require Import base option list strings gmap sorting.

(** ** JavaScript values the services rely on *)

Module JS.

(** A TypeScript [number] used as a property key of an array: only a
    non-negative integral value names an element; a fraction, NaN or an
    infinity names none. *)
Inductive number : Type :=
| Integral (z : Z)
| NonIntegral.

(** [arr[id]]: the element, or [undefined] (here [None]). *)
Definition index {A : Type} (arr : list A) (id : number) : option A :=
  match id with
  | Integral z => if decide (0 ≤ z)%Z then arr !! Z.to_nat z else None
  | NonIntegral => None
  end.

(** Truthiness of a [string | undefined]: [undefined] and the empty
    string are falsy. *)
Definition truthy (v : option string) : bool :=
  match v with
  | Some s => negb (String.eqb s "")
  | None => false
  end.

(** [v || d] where [v : string | undefined] and [d : string]. *)
Definition or (v : option string) (d : string) : string :=
  match v with
  | Some s => if truthy v then s else d
  | None => d
  end.

End JS.

(** ** slot.service.ts *)

Module SlotService.

(** The injectable holds one private field, the array [slots]. *)
Record t : Type := Build { slots : list string }.

(** Field initialiser of the class. *)
Definition new : t := Build ["Slot 1"; "Slot 2"; "Slot 3"].

Definition getAllSlots (this : t) : list string := slots this.

Definition getSlotById (this : t) (id : JS.number) : string :=
  JS.or (JS.index (slots this) id) "Slot not found".

(** [this.slots.push(name); return name]: the result and the service
    after the call. *)
Definition addSlot (this : t) (name : string) : string * t :=
  (name, Build (slots this ++ [name])).

End SlotService.

(** ** Replies of route handlers

    Nest sends the value a handler returns as the body of a successful
    response; a handler rejects a request by throwing.  No handler of the
    repository throws. *)

Inductive Reply : Type :=
| Text (body : string)
| Json (body : list string).

(** ** slot.controller.ts *)

Module SlotController.

(** The controller keeps the injected [SlotService]; every method is run
    against the current service and gives back the service it leaves. *)
Definition getSlots (slotService : SlotService.t) : Reply * SlotService.t :=
  (Json (SlotService.getAllSlots slotService), slotService).

Definition createSlot (slotService : SlotService.t) : Reply * SlotService.t :=
  (Text "This action creates a new slot", slotService).

Definition updateSlot (slotService : SlotService.t) : Reply * SlotService.t :=
  (Text "This action updates a slot", slotService).

Definition deleteSlot (slotService : SlotService.t) : Reply * SlotService.t :=
  (Text "This action deletes a slot", slotService).

End SlotController.

(** ** booking.controller.ts

    The class has no constructor and no field; its handlers take no
    parameter. *)

Module BookingController.

Definition getBookings : Reply := Text "This action returns all bookings".

Definition getMyBookings : Reply := Text "This action returns my bookings".

Definition createBooking : Reply := Text "This action creates a new booking".

Definition confirmBooking : Reply := Text "This action confirms a booking".

Definition cancelBooking : Reply := Text "This action cancels a booking".

End BookingController.

(** ** queue.controller.ts

    Each handler receives the [:id] path parameter and the raw request and
    uses neither. *)

(** What a request carries besides its route: the caller and a payload. *)
Record HttpRequest : Type := { caller : string; payload : string }.

Module QueueController.

Definition joinQueue (slotId : string) (req : HttpRequest) : Reply := Text "".

Definition leaveQueue (slotId : string) (req : HttpRequest) : Reply := Text "".

Definition getQueuePosition (slotId : string) (req : HttpRequest) : Reply :=
  Text "".

End QueueController.

(** ** The application: routes and dispatch

    Method and path of every handler, as the [@Controller], [@Get],
    [@Post], [@Patch] and [@Delete] decorators give them. *)

Inductive Route : Type :=
| GET_admin_slots
| POST_admin_slots
| PATCH_admin_slots_id (id : string)
| DELETE_admin_slots_id (id : string)
| GET_bookings
| GET_bookings_my
| POST_bookings_reserve
| POST_bookings_id_confirm (id : string)
| POST_bookings_id_cancel (id : string)
| POST_slots_id_queue (id : string)
| DELETE_slots_id_queue (id : string)
| GET_slots_id_queue_position (id : string).

(** The only state the controllers can reach is the [SlotService]
    singleton. *)
Record App : Type := { slotService : SlotService.t }.

Definition boot : App := {| slotService := SlotService.new |}.

Definition handle (r : Route) (req : HttpRequest) (app : App) : Reply * App :=
  let slot (h : SlotService.t → Reply * SlotService.t) :=
    let '(reply, s) := h (slotService app) in (reply, {| slotService := s |}) in
  match r with
  | GET_admin_slots => slot SlotController.getSlots
  | POST_admin_slots => slot SlotController.createSlot
  | PATCH_admin_slots_id _ => slot SlotController.updateSlot
  | DELETE_admin_slots_id _ => slot SlotController.deleteSlot
  | GET_bookings => (BookingController.getBookings, app)
  | GET_bookings_my => (BookingController.getMyBookings, app)
  | POST_bookings_reserve => (BookingController.createBooking, app)
  | POST_bookings_id_confirm _ => (BookingController.confirmBooking, app)
  | POST_bookings_id_cancel _ => (BookingController.cancelBooking, app)
  | POST_slots_id_queue id => (QueueController.joinQueue id req, app)
  | DELETE_slots_id_queue id => (QueueController.leaveQueue id req, app)
  | GET_slots_id_queue_position id =>
      (QueueController.getQueuePosition id req, app)
  end.

(** A session: requests served one after the other; the replies in order
    and the application left behind. *)
Fixpoint serve (rs : list (Route * HttpRequest)) (app : App)
  : list Reply * App :=
  match rs with
  | [] => ([], app)
  | (r, req) :: rs' =>
      let '(reply, app1) := handle r req app in
      let '(replies, app2) := serve rs' app1 in
      (reply :: replies, app2)
  end.

(** ** The reservation core of the design document

    Slot capacities, Booking Attempts, holds and waiting lists have no
    counterpart in the TypeScript sources above: the registry there is a list
    of names and the booking and queue controllers keep no state.  The
    definitions of this module are therefore modelled from the design
    document, section by section.

    The atomic unit is the single store operation (section 5).  A call is a
    task that performs its store operations one at a time; between two of
    them the clock may advance and the tasks of other calls and of the
    background jobs may run.  A store operation may be unavailable, and a
    task may die between two store operations (sections 4.4, 4.5 and 7).
    Audit events and notifications never feed back into the state and are
    left out. *)

Module Core.

(** Modelled from the spec: the identifier of a slot; the sources declare
    no type for the identifiers and the instants of the design document. *)
Abbreviation SlotId := nat.

(** Modelled from the spec: the identifier of a user. *)
Abbreviation UserId := nat.

(** Modelled from the spec: the identifier of a Booking Attempt, its row in
    the Booking Attempt table. *)
Abbreviation BookingId := nat.

(** Modelled from the spec: an instant of the Clock, in seconds. *)
Abbreviation Instant := Z.

(** Modelled from the spec: the injected configuration (hold TTL, queue
    bound, queue inactivity timeout); no configuration type is in the
    sources. *)
Record Config : Type := {
  ttl : Z;
  queueMaxSize : nat;
  inactivityTimeout : Z
}.

(** *** Data model (section 3) *)

Module SlotStatus.
(** Modelled from the spec: the five slot statuses; the sources have no
    slot status. *)
Inductive t : Type := AVAILABLE | RESERVED | BOOKED | EXPIRED | BLOCKED.
End SlotStatus.

(** Modelled from the spec: the Slot record, absent from the sources.
    [blocked] is the administrative flag behind status BLOCKED, the one
    status that neither [bookedCount] nor the clock determines. *)
Record Slot : Type := {
  startTime : Z;
  endTime : Z;
  capacity : Z;
  bookedCount : Z;
  blocked : bool
}.

(** Modelled from the spec: the slot status, recomputed from [bookedCount]
    against [capacity] and the clock against [endTime], never stored. *)
Definition slotStatus (now : Instant) (s : Slot) : SlotStatus.t :=
  if blocked s then SlotStatus.BLOCKED
  else if bool_decide (endTime s ≤ now)%Z then SlotStatus.EXPIRED
  else if bool_decide (capacity s ≤ bookedCount s)%Z then SlotStatus.BOOKED
  else if bool_decide (0 < bookedCount s)%Z then SlotStatus.RESERVED
  else SlotStatus.AVAILABLE.

Module BookingStatus.
(** Modelled from the spec: the six booking statuses; the sources have no
    booking record. *)
Inductive t : Type :=
  PENDING | RESERVED | CONFIRMED | EXPIRED | CANCELLED | COMPLETED.

(** Modelled from the spec: the status of an attempt that holds a slot unit
    pending confirmation. *)
Definition reserved (s : t) : bool :=
  match s with
  | RESERVED => true
  | PENDING | CONFIRMED | EXPIRED | CANCELLED | COMPLETED => false
  end.

(** Modelled from the spec: the status from which an attempt is cancelled
    or completed. *)
Definition isConfirmed (s : t) : bool :=
  match s with
  | CONFIRMED => true
  | PENDING | RESERVED | EXPIRED | CANCELLED | COMPLETED => false
  end.

(** Modelled from the spec: the terminal statuses. *)
Definition terminal (s : t) : bool :=
  match s with
  | EXPIRED | CANCELLED | COMPLETED => true
  | PENDING | RESERVED | CONFIRMED => false
  end.

(** Modelled from the spec: the statuses the capacity invariant counts. *)
Definition occupying (s : t) : bool :=
  match s with
  | RESERVED | CONFIRMED => true
  | PENDING | EXPIRED | CANCELLED | COMPLETED => false
  end.
End BookingStatus.

Module Booking.
(** Modelled from the spec: the Booking Attempt record, absent from the
    sources.  Its [bookingId] is its row in the table of attempts, which
    only grows. *)
Record t : Type := Build {
  userId : UserId;
  slotId : SlotId;
  status : BookingStatus.t;
  reservedAt : Instant;
  expiresAt : Instant;
  confirmedAt : option Instant;
  cancelledAt : option Instant;
  completedAt : option Instant;
  version : nat
}.
End Booking.

Module QueueEntry.
(** Modelled from the spec: a waiting entry of a slot's Wait Queue, absent
    from the sources.  A queue holds its WAITING entries only; an entry that
    is converted, expired or withdrawn leaves it. *)
Record t : Type := Build { userId : UserId; joinedAt : Instant }.
End QueueEntry.

(** *** Calls, their answers and their program points *)

(** Modelled from the spec: why a claim is rejected. *)
Inductive RejectReason : Type :=
| SlotNotFound
| NotClaimable
| WaitQueueFull (maxSize : nat).

(** Modelled from the spec: the answers of the inbound operations of
    section 6, [ServiceUnavailable] of section 7, and [Background] for the
    tasks of the Scheduler and of the sweeps, which answer nobody. *)
Inductive Result : Type :=
| Reserved (bookingId : BookingId) (expiresAt : Instant)
| Queued (position : nat)
| Rejected (reason : RejectReason)
| Confirmed
| Expired
| Cancelled
| NotCancellable
| InvalidTransition
| ConcurrentModification
| ServiceUnavailable
| LeftQueue (found : bool)
| Positioned (place : option (nat * nat))
| Background.

(** Modelled from the spec: the inbound operations. *)
Inductive Operation : Type :=
| OpClaim (userId : UserId) (slotId : SlotId)
| OpConfirm (bookingId : BookingId) (expectedVersion : nat)
| OpCancel (bookingId : BookingId) (actor : UserId) (expectedVersion : nat)
| OpLeaveQueue (slotId : SlotId) (userId : UserId)
| OpQueuePosition (slotId : SlotId) (userId : UserId).

(** Modelled from the spec: who runs the claim path: a client, or the
    promotion routine on behalf of a queued user, which then carries the
    answer of the operation that released the capacity. *)
Inductive Origin : Type :=
| Client
| Promotion (outer : Result).

(** Modelled from the spec: the program point of a task: the store
    operation it performs next.
    - [ClaimLoad] to [ClaimCreate] are steps (1) to (4) of [claim];
      [ClaimEnqueue] is the enqueue of a claim that met contention;
      [ClaimUndoHold] and [ClaimUndoCapacity] give back what a claim took
      before a store became unavailable (fail closed).
    - [ConfirmLoad], [ConfirmUpdate], [ConfirmReleaseHold] are [confirm].
    - [ExpireUpdate], [ExpireReleaseHold], [ReleaseCapacity],
      [PromoteDequeue] are the release path of RESERVED to EXPIRED; the last
      two are shared with [cancel].
    - [CancelLoad], [CancelUpdate] are [cancel]; [CompleteUpdate] is
      CONFIRMED to COMPLETED; [DeleteHold] removes an orphan hold. *)
Inductive Pc : Type :=
| ClaimLoad (o : Origin) (userId : UserId) (slotId : SlotId)
| ClaimReserve (o : Origin) (userId : UserId) (slotId : SlotId)
| ClaimAcquire (o : Origin) (userId : UserId) (slotId : SlotId)
| ClaimCreate (o : Origin) (userId : UserId) (slotId : SlotId)
| ClaimUndoHold (userId : UserId) (slotId : SlotId)
| ClaimUndoCapacity (slotId : SlotId)
| ClaimEnqueue (userId : UserId) (slotId : SlotId)
| ConfirmLoad (bookingId : BookingId) (expectedVersion : nat)
| ConfirmUpdate (bookingId : BookingId) (expectedVersion : nat)
| ConfirmReleaseHold (slotId : SlotId) (userId : UserId)
| ExpireUpdate (r : Result) (bookingId : BookingId) (version : nat)
| ExpireReleaseHold (r : Result) (slotId : SlotId) (userId : UserId)
| ReleaseCapacity (r : Result) (slotId : SlotId)
| PromoteDequeue (r : Result) (slotId : SlotId)
| CancelLoad (bookingId : BookingId) (actor : UserId) (expectedVersion : nat)
| CancelUpdate (bookingId : BookingId) (expectedVersion : nat)
| CompleteUpdate (bookingId : BookingId) (version : nat)
| DeleteHold (key : nat * nat) (expiry : Instant)
| LeaveQueue (slotId : SlotId) (userId : UserId)
| ReadPosition (slotId : SlotId) (userId : UserId).

(** Modelled from the spec: a task: under way, answered, or dead before
    it answered. *)
Inductive Task : Type :=
| Running (pc : Pc)
| Finished (r : Result)
| Crashed.

(** Modelled from the spec: the first program point of an operation. *)
Definition entry (op : Operation) : Pc :=
  match op with
  | OpClaim userId slotId => ClaimLoad Client userId slotId
  | OpConfirm bookingId v => ConfirmLoad bookingId v
  | OpCancel bookingId actor v => CancelLoad bookingId actor v
  | OpLeaveQueue slotId userId => LeaveQueue slotId userId
  | OpQueuePosition slotId userId => ReadPosition slotId userId
  end.

(** Modelled from the spec: the state: the clock, the stores (Slot table,
    Booking Attempt table, Hold Store entries keyed by [(slotId, userId)]
    with their expiry instant, one Wait Queue per slot) and the tasks, a
    task being named by its row. *)
Record State : Type := {
  clock : Instant;
  registry : gmap nat Slot;
  bookings : list Booking.t;
  holds : gmap (nat * nat) Z;
  queues : gmap nat (list QueueEntry.t);
  tasks : list Task
}.

(** Modelled from the spec: the state before any call, at instant [t0]. *)
Definition initial (t0 : Instant) (slots : gmap nat Slot) : State :=
  {| clock := t0; registry := slots; bookings := []; holds := ∅;
     queues := ∅; tasks := [] |}.

(** Modelled from the spec: the state at another instant. *)
Definition withClock (t : Instant) (st : State) : State :=
  {| clock := t; registry := registry st; bookings := bookings st;
     holds := holds st; queues := queues st; tasks := tasks st |}.

(** Modelled from the spec: replacing the Slot table of a state. *)
Definition withRegistry (r : gmap nat Slot) (st : State) : State :=
  {| clock := clock st; registry := r; bookings := bookings st;
     holds := holds st; queues := queues st; tasks := tasks st |}.

(** Modelled from the spec: replacing the Booking Attempt table. *)
Definition withBookings (bs : list Booking.t) (st : State) : State :=
  {| clock := clock st; registry := registry st; bookings := bs;
     holds := holds st; queues := queues st; tasks := tasks st |}.

(** Modelled from the spec: replacing the Hold Store entries. *)
Definition withHolds (h : gmap (nat * nat) Z) (st : State) : State :=
  {| clock := clock st; registry := registry st; bookings := bookings st;
     holds := h; queues := queues st; tasks := tasks st |}.

(** Modelled from the spec: replacing the Wait Queues. *)
Definition withQueues (q : gmap nat (list QueueEntry.t)) (st : State) : State :=
  {| clock := clock st; registry := registry st; bookings := bookings st;
     holds := holds st; queues := q; tasks := tasks st |}.

(** Modelled from the spec: task [k] moving on to [t]. *)
Definition setTask (k : nat) (t : Task) (st : State) : State :=
  {| clock := clock st; registry := registry st; bookings := bookings st;
     holds := holds st; queues := queues st; tasks := <[k := t]> (tasks st) |}.

(** Modelled from the spec: new tasks entering the system. *)
Definition spawn (ts : list Task) (st : State) : State :=
  {| clock := clock st; registry := registry st; bookings := bookings st;
     holds := holds st; queues := queues st; tasks := tasks st ++ ts |}.

(** *** Slot Registry (section 4.1) *)

(** Modelled from the spec: [getSlot(slotId) -> Slot | NotFound] of the
    Slot Registry, which the sources do not implement over Slot records. *)
Definition getSlot (slotId : SlotId) (st : State) : option Slot :=
  registry st !! slotId.

(** Modelled from the spec: a slot is not claimable when its status is
    BLOCKED or EXPIRED (which covers [now >= endTime]). *)
Definition claimable (now : Instant) (s : Slot) : bool :=
  match slotStatus now s with
  | SlotStatus.BLOCKED | SlotStatus.EXPIRED => false
  | SlotStatus.AVAILABLE | SlotStatus.RESERVED | SlotStatus.BOOKED => true
  end.

(** Modelled from the spec: the results of [tryReserveCapacity]. *)
Inductive ReserveResult : Type :=
| ReserveOk
| CapacityExhausted
| SlotNotClaimable.

(** Modelled from the spec: a slot with one more, or one less, unit of its
    capacity taken. *)
Definition addBooked (d : Z) (s : Slot) : Slot :=
  {| startTime := startTime s; endTime := endTime s; capacity := capacity s;
     bookedCount := (bookedCount s + d)%Z; blocked := blocked s |}.

(** Modelled from the spec: [tryReserveCapacity], the one operation that
    raises [bookedCount]; an unknown slot is not claimable. *)
Definition tryReserveCapacity (now : Instant) (slotId : SlotId)
    (reg : gmap nat Slot) : ReserveResult * gmap nat Slot :=
  match reg !! slotId with
  | None => (SlotNotClaimable, reg)
  | Some s =>
      if negb (claimable now s) then (SlotNotClaimable, reg)
      else if bool_decide (bookedCount s < capacity s)%Z
      then (ReserveOk, <[slotId := addBooked 1 s]> reg)
      else (CapacityExhausted, reg)
  end.

(** Modelled from the spec: [releaseCapacity(slotId) -> Ok], giving one
    unit back. *)
Definition releaseCapacity (slotId : SlotId) (reg : gmap nat Slot)
  : gmap nat Slot :=
  alter (addBooked (-1)) slotId reg.

(** *** Hold Store (section 6, outbound) *)

(** Modelled from the spec: a hold is live until its expiry instant. *)
Definition liveHold (now : Instant) (key : nat * nat)
    (h : gmap (nat * nat) Z) : bool :=
  match h !! key with
  | Some expiry => bool_decide (now < expiry)%Z
  | None => false
  end.

(** Modelled from the spec: [acquire(key, ttl) -> Ok | AlreadyHeld],
    set-if-absent with expiry; [None] stands for AlreadyHeld. *)
Definition acquire (now : Instant) (key : nat * nat) (ttl : Z)
    (h : gmap (nat * nat) Z) : option (gmap (nat * nat) Z) :=
  if liveHold now key h then None else Some (<[key := (now + ttl)%Z]> h).

(** Modelled from the spec: [release(key) -> Ok]. *)
Definition release (key : nat * nat) (h : gmap (nat * nat) Z)
  : gmap (nat * nat) Z :=
  delete key h.

(** *** Wait Queue (section 4.3) *)

(** Modelled from the spec: the waiting entries of a slot, front first. *)
Definition queueOf (slotId : SlotId) (qs : gmap nat (list QueueEntry.t))
  : list QueueEntry.t :=
  default [] (qs !! slotId).

(** Modelled from the spec: entries idle longer than the inactivity timeout
    are purged on the next access. *)
Definition purge (cfg : Config) (now : Instant) (q : list QueueEntry.t)
  : list QueueEntry.t :=
  filter (λ e, (now - QueueEntry.joinedAt e ≤ inactivityTimeout cfg)%Z) q.

(** Modelled from the spec: the queue is ordered by arrival time; an entry
    goes behind every entry that joined no later than it. *)
Fixpoint insertByArrival (e : QueueEntry.t) (q : list QueueEntry.t)
  : list QueueEntry.t :=
  match q with
  | [] => [e]
  | x :: q' =>
      if bool_decide (QueueEntry.joinedAt x ≤ QueueEntry.joinedAt e)%Z
      then x :: insertByArrival e q'
      else e :: q
  end.

(** Modelled from the spec: the rank of a user in a queue, counted from 1. *)
Definition rankOf (userId : UserId) (q : list QueueEntry.t) : option nat :=
  (λ p, S p.1) <$> list_find (λ e, QueueEntry.userId e = userId) q.

(** Modelled from the spec: the results of [enqueue]. *)
Inductive EnqueueResult : Type :=
| Enqueued (rank : nat)
| AlreadyQueued (rank : nat)
| QueueFull (maxSize : nat).

(** Modelled from the spec: [enqueue(slotId, userId, joinedAt)]; a
    duplicate returns the rank of the entry already there. *)
Definition enqueue (cfg : Config) (slotId : SlotId) (userId : UserId)
    (joinedAt : Instant) (qs : gmap nat (list QueueEntry.t))
  : EnqueueResult * gmap nat (list QueueEntry.t) :=
  let q := purge cfg joinedAt (queueOf slotId qs) in
  match rankOf userId q with
  | Some r => (AlreadyQueued r, <[slotId := q]> qs)
  | None =>
      if bool_decide (queueMaxSize cfg ≤ length q)
      then (QueueFull (queueMaxSize cfg), <[slotId := q]> qs)
      else
        let q' := insertByArrival (QueueEntry.Build userId joinedAt) q in
        (Enqueued (default 0 (rankOf userId q')), <[slotId := q']> qs)
  end.

(** Modelled from the spec: [dequeueFront(slotId) -> QueueEntry | Empty]. *)
Definition dequeueFront (cfg : Config) (now : Instant) (slotId : SlotId)
    (qs : gmap nat (list QueueEntry.t))
  : option QueueEntry.t * gmap nat (list QueueEntry.t) :=
  match purge cfg now (queueOf slotId qs) with
  | [] => (None, <[slotId := []]> qs)
  | e :: q => (Some e, <[slotId := q]> qs)
  end.

(** Modelled from the spec: [leave(slotId, userId) -> Ok | NotFound]; the
    boolean tells whether an entry was removed. *)
Definition leave (cfg : Config) (now : Instant) (slotId : SlotId)
    (userId : UserId) (qs : gmap nat (list QueueEntry.t))
  : bool * gmap nat (list QueueEntry.t) :=
  let q := purge cfg now (queueOf slotId qs) in
  (bool_decide (is_Some (rankOf userId q)),
   <[slotId := filter (λ e, QueueEntry.userId e ≠ userId) q]> qs).

(** Modelled from the spec: [position(slotId, userId) -> (rank, total) |
    NotFound]. *)
Definition position (cfg : Config) (now : Instant) (slotId : SlotId)
    (userId : UserId) (qs : gmap nat (list QueueEntry.t))
  : option (nat * nat) :=
  let q := purge cfg now (queueOf slotId qs) in
  (λ r, (r, length q)) <$> rankOf userId q.

(** *** Booking Attempt table *)

(** Modelled from the spec: the non-terminal attempt of a user on a slot,
    with its [bookingId], if there is one: the table is indexed by
    [(userId, slotId)] for this check. *)
Definition findAttempt (userId : UserId) (slotId : SlotId)
    (bs : list Booking.t) : option (nat * Booking.t) :=
  list_find (λ b, Booking.userId b = userId ∧ Booking.slotId b = slotId ∧
                  BookingStatus.terminal (Booking.status b) = false) bs.

(** Modelled from the spec: a Booking Attempt created in RESERVED with
    [expiresAt = now + TTL]. *)
Definition newBooking (cfg : Config) (now : Instant) (userId : UserId)
    (slotId : SlotId) : Booking.t :=
  Booking.Build userId slotId BookingStatus.RESERVED now (now + ttl cfg)%Z
                None None None 0.

(** Modelled from the spec: the attempt after RESERVED to EXPIRED. *)
Definition expired (b : Booking.t) : Booking.t :=
  Booking.Build (Booking.userId b) (Booking.slotId b) BookingStatus.EXPIRED
    (Booking.reservedAt b) (Booking.expiresAt b) (Booking.confirmedAt b)
    (Booking.cancelledAt b) (Booking.completedAt b) (S (Booking.version b)).

(** Modelled from the spec: the attempt after RESERVED to CONFIRMED. *)
Definition confirmed (now : Instant) (b : Booking.t) : Booking.t :=
  Booking.Build (Booking.userId b) (Booking.slotId b) BookingStatus.CONFIRMED
    (Booking.reservedAt b) (Booking.expiresAt b) (Some now)
    (Booking.cancelledAt b) (Booking.completedAt b) (S (Booking.version b)).

(** Modelled from the spec: the attempt after CONFIRMED to CANCELLED. *)
Definition cancelled (now : Instant) (b : Booking.t) : Booking.t :=
  Booking.Build (Booking.userId b) (Booking.slotId b) BookingStatus.CANCELLED
    (Booking.reservedAt b) (Booking.expiresAt b) (Booking.confirmedAt b)
    (Some now) (Booking.completedAt b) (S (Booking.version b)).

(** Modelled from the spec: the attempt after CONFIRMED to COMPLETED. *)
Definition completed (now : Instant) (b : Booking.t) : Booking.t :=
  Booking.Build (Booking.userId b) (Booking.slotId b) BookingStatus.COMPLETED
    (Booking.reservedAt b) (Booking.expiresAt b) (Booking.confirmedAt b)
    (Booking.cancelledAt b) (Some now) (S (Booking.version b)).

(** Modelled from the spec: the outcomes of a version-guarded update. *)
Inductive UpdateResult : Type :=
| Updated (before : Booking.t) (bs : list Booking.t)
| Invalid
| Conflict.

(** Modelled from the spec: the version-guarded update of one attempt, the
    one way a transition is written: only from the status the transition
    starts in (so never from a terminal one: InvalidTransition), only at the
    version the caller presents (else ConcurrentModification). *)
Definition update (from : BookingStatus.t → bool)
    (to : Booking.t → Booking.t) (bookingId : BookingId) (version : nat)
    (bs : list Booking.t) : UpdateResult :=
  match bs !! bookingId with
  | None => Invalid
  | Some b =>
      if negb (from (Booking.status b)) then Invalid
      else if bool_decide (Booking.version b ≠ version) then Conflict
      else Updated b (<[bookingId := to b]> bs)
  end.

(** *** Reservation State Machine (section 4.2), one store operation at a
    time *)

(** Modelled from the spec: how a claim that got its attempt ends: a client
    is answered Reserved; a promotion is over and the releasing operation
    answers. *)
Definition granted (o : Origin) (bookingId : BookingId) (e : Instant) : Task :=
  match o with
  | Client => Finished (Reserved bookingId e)
  | Promotion r => Finished r
  end.

(** Modelled from the spec: how a refused claim goes on: a client is
    answered Rejected; a promoted entry is dropped and the promotion takes
    the next entry. *)
Definition refused (o : Origin) (slotId : SlotId) (reason : RejectReason)
  : Task :=
  match o with
  | Client => Finished (Rejected reason)
  | Promotion r => Running (PromoteDequeue r slotId)
  end.

(** Modelled from the spec: how a claim that met contention goes on: a
    client is enqueued; a promoted entry is dropped, not re-queued, and the
    promotion takes the next entry. *)
Definition contended (o : Origin) (userId : UserId) (slotId : SlotId) : Task :=
  match o with
  | Client => Running (ClaimEnqueue userId slotId)
  | Promotion r => Running (PromoteDequeue r slotId)
  end.

(** Modelled from the spec: how a failed guarded update is answered. *)
Definition rejectedUpdate (conflict : bool) : Task :=
  Finished (if conflict then ConcurrentModification else InvalidTransition).

(** Modelled from the spec: task [k], at program point [pc], performs its
    store operation.
    - [ClaimLoad]: step (1); the existing non-terminal attempt is returned
      unchanged.
    - [ClaimReserve]: step (2), [tryReserveCapacity].
    - [ClaimAcquire]: step (3); the document names no release of the
      reserved unit when the hold is already held, and none is made.
    - [ClaimCreate]: step (4); the table admits one non-terminal attempt per
      [(userId, slotId)], and the attempt already there is returned.
    - [ClaimEnqueue]: the enqueue of steps (2) and (3); [QueueFull] of the
      Wait Queue is answered Rejected, the answer of a claim in section 6
      that is neither Reserved nor Queued.
    - [ConfirmLoad]: the validation; an attempt found expired goes down the
      release path with the token the Scheduler would use, its version as
      read.
    - [CancelLoad]: the validation; an attempt that is not CONFIRMED is
      answered InvalidTransition (sections 4.2 and 7), NotCancellable being
      the answer at or past [startTime], which is read with the attempt, no
      step of the core changing it.
    - The guarded updates answer ConcurrentModification to a version that
      is not the one in the table; re-reading and retrying is the caller's
      (section 4.2), a new call here. *)
Definition exec (cfg : Config) (k : nat) (pc : Pc) (st : State) : State :=
  match pc with
  | ClaimLoad o userId slotId =>
      match getSlot slotId st with
      | None => setTask k (refused o slotId SlotNotFound) st
      | Some _ =>
          match findAttempt userId slotId (bookings st) with
          | Some (bookingId, b) =>
              setTask k (granted o bookingId (Booking.expiresAt b)) st
          | None => setTask k (Running (ClaimReserve o userId slotId)) st
          end
      end
  | ClaimReserve o userId slotId =>
      match tryReserveCapacity (clock st) slotId (registry st) with
      | (ReserveOk, reg) =>
          setTask k (Running (ClaimAcquire o userId slotId))
            (withRegistry reg st)
      | (CapacityExhausted, _) => setTask k (contended o userId slotId) st
      | (SlotNotClaimable, _) => setTask k (refused o slotId NotClaimable) st
      end
  | ClaimAcquire o userId slotId =>
      match acquire (clock st) (slotId, userId) (ttl cfg) (holds st) with
      | Some h =>
          setTask k (Running (ClaimCreate o userId slotId)) (withHolds h st)
      | None => setTask k (contended o userId slotId) st
      end
  | ClaimCreate o userId slotId =>
      match findAttempt userId slotId (bookings st) with
      | Some (bookingId, b) =>
          setTask k (granted o bookingId (Booking.expiresAt b)) st
      | None =>
          let b := newBooking cfg (clock st) userId slotId in
          setTask k (granted o (length (bookings st)) (Booking.expiresAt b))
            (withBookings (bookings st ++ [b]) st)
      end
  | ClaimUndoHold userId slotId =>
      setTask k (Running (ClaimUndoCapacity slotId))
        (withHolds (release (slotId, userId) (holds st)) st)
  | ClaimUndoCapacity slotId =>
      setTask k (Finished ServiceUnavailable)
        (withRegistry (releaseCapacity slotId (registry st)) st)
  | ClaimEnqueue userId slotId =>
      match enqueue cfg slotId userId (clock st) (queues st) with
      | (Enqueued r, qs) => setTask k (Finished (Queued r)) (withQueues qs st)
      | (AlreadyQueued r, qs) =>
          setTask k (Finished (Queued r)) (withQueues qs st)
      | (QueueFull n, qs) =>
          setTask k (Finished (Rejected (WaitQueueFull n))) (withQueues qs st)
      end
  | ConfirmLoad bookingId v =>
      match bookings st !! bookingId with
      | None => setTask k (Finished InvalidTransition) st
      | Some b =>
          if negb (BookingStatus.reserved (Booking.status b))
          then setTask k (Finished InvalidTransition) st
          else if bool_decide (Booking.expiresAt b ≤ clock st)%Z
          then setTask k
                 (Running (ExpireUpdate Expired bookingId (Booking.version b)))
                 st
          else setTask k (Running (ConfirmUpdate bookingId v)) st
      end
  | ConfirmUpdate bookingId v =>
      match update BookingStatus.reserved (confirmed (clock st)) bookingId v
              (bookings st) with
      | Updated b bs =>
          setTask k
            (Running (ConfirmReleaseHold (Booking.slotId b) (Booking.userId b)))
            (withBookings bs st)
      | Invalid => setTask k (rejectedUpdate false) st
      | Conflict => setTask k (rejectedUpdate true) st
      end
  | ConfirmReleaseHold slotId userId =>
      setTask k (Finished Confirmed)
        (withHolds (release (slotId, userId) (holds st)) st)
  | ExpireUpdate r bookingId v =>
      match update BookingStatus.reserved expired bookingId v (bookings st) with
      | Updated b bs =>
          setTask k
            (Running (ExpireReleaseHold r (Booking.slotId b) (Booking.userId b)))
            (withBookings bs st)
      | Invalid => setTask k (rejectedUpdate false) st
      | Conflict => setTask k (rejectedUpdate true) st
      end
  | ExpireReleaseHold r slotId userId =>
      setTask k (Running (ReleaseCapacity r slotId))
        (withHolds (release (slotId, userId) (holds st)) st)
  | ReleaseCapacity r slotId =>
      setTask k (Running (PromoteDequeue r slotId))
        (withRegistry (releaseCapacity slotId (registry st)) st)
  | PromoteDequeue r slotId =>
      match dequeueFront cfg (clock st) slotId (queues st) with
      | (None, qs) => setTask k (Finished r) (withQueues qs st)
      | (Some e, qs) =>
          setTask k
            (Running (ClaimLoad (Promotion r) (QueueEntry.userId e) slotId))
            (withQueues qs st)
      end
  | CancelLoad bookingId actor v =>
      match bookings st !! bookingId with
      | None => setTask k (Finished InvalidTransition) st
      | Some b =>
          if negb (BookingStatus.isConfirmed (Booking.status b))
          then setTask k (Finished InvalidTransition) st
          else
            match getSlot (Booking.slotId b) st with
            | None => setTask k (Finished NotCancellable) st
            | Some s =>
                if bool_decide (clock st < startTime s)%Z
                then setTask k (Running (CancelUpdate bookingId v)) st
                else setTask k (Finished NotCancellable) st
            end
      end
  | CancelUpdate bookingId v =>
      match update BookingStatus.isConfirmed (cancelled (clock st)) bookingId v
              (bookings st) with
      | Updated b bs =>
          setTask k (Running (ReleaseCapacity Cancelled (Booking.slotId b)))
            (withBookings bs st)
      | Invalid => setTask k (rejectedUpdate false) st
      | Conflict => setTask k (rejectedUpdate true) st
      end
  | CompleteUpdate bookingId v =>
      match update BookingStatus.isConfirmed (completed (clock st)) bookingId v
              (bookings st) with
      | Updated b bs => setTask k (Finished Background) (withBookings bs st)
      | Invalid => setTask k (rejectedUpdate false) st
      | Conflict => setTask k (rejectedUpdate true) st
      end
  | DeleteHold key expiry =>
      setTask k (Finished Background)
        (if bool_decide (holds st !! key = Some expiry)
         then withHolds (release key (holds st)) st else st)
  | LeaveQueue slotId userId =>
      let '(found, qs) := leave cfg (clock st) slotId userId (queues st) in
      setTask k (Finished (LeftQueue found)) (withQueues qs st)
  | ReadPosition slotId userId =>
      setTask k
        (Finished (Positioned (position cfg (clock st) slotId userId
                                 (queues st)))) st
  end.

(** Modelled from the spec: what becomes of a task whose store operation
    is unavailable: it fails closed.  A claim gives back the unit, and the
    hold, it had taken; any other task stops there and answers
    ServiceUnavailable. *)
Definition failed (pc : Pc) : Task :=
  match pc with
  | ClaimAcquire _ _ slotId => Running (ClaimUndoCapacity slotId)
  | ClaimCreate _ userId slotId => Running (ClaimUndoHold userId slotId)
  | _ => Finished ServiceUnavailable
  end.

(** *** Background jobs (sections 4.2, 4.4, 4.5) *)

(** Modelled from the spec: the Scheduler's scan: one expiration task per
    RESERVED attempt with [expiresAt <= now], with the idempotency token
    (bookingId, version at selection). *)
Definition due (now : Instant) (bs : list Booking.t) : list Task :=
  omap (λ ib : nat * Booking.t,
          if BookingStatus.reserved (Booking.status ib.2) &&
             bool_decide (Booking.expiresAt ib.2 ≤ now)%Z
          then Some (Running (ExpireUpdate Background ib.1
                                (Booking.version ib.2)))
          else None)
       (imap pair bs).

(** Modelled from the spec: the sweep's first scan: RESERVED attempts
    without a live hold are forced to EXPIRED. *)
Definition unheld (now : Instant) (bs : list Booking.t)
    (h : gmap (nat * nat) Z) : list Task :=
  omap (λ ib : nat * Booking.t,
          if BookingStatus.reserved (Booking.status ib.2) &&
             negb (liveHold now (Booking.slotId ib.2, Booking.userId ib.2) h)
          then Some (Running (ExpireUpdate Background ib.1
                                (Booking.version ib.2)))
          else None)
       (imap pair bs).

(** Modelled from the spec: a hold is backed when a RESERVED attempt has
    its key. *)
Definition backed (bs : list Booking.t) (key : nat * nat) : bool :=
  bool_decide
    (Exists (λ b, BookingStatus.reserved (Booking.status b) = true ∧
                  (Booking.slotId b, Booking.userId b) = key) bs).

(** Modelled from the spec: the sweep's second scan: live holds without a
    RESERVED attempt are deleted, by compare-and-delete. *)
Definition orphans (now : Instant) (bs : list Booking.t)
    (h : gmap (nat * nat) Z) : list Task :=
  omap (λ kv : nat * nat * Z,
          if bool_decide (now < kv.2)%Z && negb (backed bs kv.1)
          then Some (Running (DeleteHold kv.1 kv.2)) else None)
       (map_to_list h).

(** Modelled from the spec: the time-driven scan: CONFIRMED attempts whose
    slot has ended are completed. *)
Definition ended (now : Instant) (reg : gmap nat Slot) (bs : list Booking.t)
  : list Task :=
  omap (λ ib : nat * Booking.t,
          match reg !! Booking.slotId ib.2 with
          | Some s =>
              if BookingStatus.isConfirmed (Booking.status ib.2) &&
                 bool_decide (endTime s ≤ now)%Z
              then Some (Running (CompleteUpdate ib.1 (Booking.version ib.2)))
              else None
          | None => None
          end)
       (imap pair bs).

(** Modelled from the spec: a slot blocked or unblocked by the
    administration. *)
Definition setBlocked (b : bool) (s : Slot) : Slot :=
  {| startTime := startTime s; endTime := endTime s; capacity := capacity s;
     bookedCount := bookedCount s; blocked := b |}.

(** *** Executions *)

(** Modelled from the spec: what can happen next: the clock advances; an
    operation is called; the Scheduler, the Reconciliation Sweep or the
    completion job scans; a task performs its next store operation, finds
    the store unavailable, or dies; the administration blocks or unblocks a
    slot. *)
Inductive Action : Type :=
| Tick (d : N)
| Call (op : Operation)
| Scan
| Sweep
| Advance
| Run (k : nat)
| Fail (k : nat)
| Crash (k : nat)
| Block (slotId : SlotId) (b : bool).

(** Modelled from the spec: the state after one action. *)
Definition step (cfg : Config) (st : State) (a : Action) : State :=
  match a with
  | Tick d => withClock (clock st + Z.of_N d)%Z st
  | Call op => spawn [Running (entry op)] st
  | Scan => spawn (due (clock st) (bookings st)) st
  | Sweep =>
      spawn (unheld (clock st) (bookings st) (holds st) ++
             orphans (clock st) (bookings st) (holds st)) st
  | Advance => spawn (ended (clock st) (registry st) (bookings st)) st
  | Run k =>
      match tasks st !! k with
      | Some (Running pc) => exec cfg k pc st
      | _ => st
      end
  | Fail k =>
      match tasks st !! k with
      | Some (Running pc) => setTask k (failed pc) st
      | _ => st
      end
  | Crash k =>
      match tasks st !! k with
      | Some (Running _) => setTask k Crashed st
      | _ => st
      end
  | Block slotId b =>
      withRegistry (alter (setBlocked b) slotId (registry st)) st
  end.

(** Modelled from the spec: the state after a sequence of actions. *)
Definition run (cfg : Config) (acts : list Action) (st : State) : State :=
  foldl (step cfg) st acts.

(** Modelled from the spec: task [k] performing [n] store operations in a
    row, nothing else happening in between. *)
Definition drive (cfg : Config) (k : nat) (n : nat) (st : State) : State :=
  run cfg (replicate n (Run k)) st.

(** *** What the properties of section 8 speak about *)

(** Modelled from the spec: the four stores of a state, without the clock
    and the tasks. *)
Definition stores (st : State)
  : gmap nat Slot * list Booking.t * gmap (nat * nat) Z *
    gmap nat (list QueueEntry.t) :=
  (registry st, bookings st, holds st, queues st).

(** Modelled from the spec: the number of CONFIRMED plus RESERVED attempts
    on a slot. *)
Definition active (slotId : SlotId) (bs : list Booking.t) : nat :=
  length (filter (λ b, Booking.slotId b = slotId ∧
                       BookingStatus.occupying (Booking.status b) = true) bs).

(** Modelled from the spec: what one attempt adds to that number. *)
Definition weight (slotId : SlotId) (b : Booking.t) : nat :=
  if decide (Booking.slotId b = slotId ∧
             BookingStatus.occupying (Booking.status b) = true)
  then 1 else 0.

(** Modelled from the spec: the unit of a slot a task is answerable for: a
    claim between its [tryReserveCapacity] and the creation of its attempt
    (or the return of the unit), and an expiration or cancellation between
    its transition and its [releaseCapacity]. *)
Definition owes (slotId : SlotId) (t : Task) : nat :=
  match t with
  | Running (ClaimAcquire _ _ s) | Running (ClaimCreate _ _ s)
  | Running (ClaimUndoHold _ s) | Running (ClaimUndoCapacity s)
  | Running (ExpireReleaseHold _ s _) | Running (ReleaseCapacity _ s) =>
      if decide (s = slotId) then 1 else 0
  | _ => 0
  end.

(** Modelled from the spec: the units of a slot the tasks are answerable
    for. *)
Definition owed (slotId : SlotId) (ts : list Task) : nat :=
  sum_list_with (owes slotId) ts.

(** Modelled from the spec: a registry as the Slot invariants want it
    before the first claim: [start < end], positive capacity, nothing
    booked. *)
Definition freshRegistry (slots : gmap nat Slot) : Prop :=
  ∀ slotId s, slots !! slotId = Some s →
    (startTime s < endTime s)%Z ∧ (0 < capacity s)%Z ∧ bookedCount s = 0%Z.

(** Modelled from the spec: the capacity invariant with its bookkeeping: on
    every slot, the attempts that occupy it and the units in the hands of
    tasks are covered by [bookedCount], which is within the capacity. *)
Definition accounted (st : State) : Prop :=
  ∀ slotId s, registry st !! slotId = Some s →
    (Z.of_nat (active slotId (bookings st) + owed slotId (tasks st))
       ≤ bookedCount s)%Z ∧
    (bookedCount s ≤ capacity s)%Z.

(** Modelled from the spec: the uniqueness invariant on a Booking Attempt
    table: two non-terminal attempts of one user on one slot are the same
    row. *)
Definition unique (bs : list Booking.t) : Prop :=
  ∀ i j bi bj, bs !! i = Some bi → bs !! j = Some bj →
    Booking.userId bi = Booking.userId bj →
    Booking.slotId bi = Booking.slotId bj →
    BookingStatus.terminal (Booking.status bi) = false →
    BookingStatus.terminal (Booking.status bj) = false →
    i = j.

(** Modelled from the spec: the slot a task has reserved a unit of, or an
    attempt was created on: it is in the registry. *)
Definition grounded (st : State) : Prop :=
  (∀ i b, bookings st !! i = Some b →
          is_Some (registry st !! Booking.slotId b)) ∧
  (∀ k o u s, tasks st !! k = Some (Running (ClaimAcquire o u s)) ∨
              tasks st !! k = Some (Running (ClaimCreate o u s)) →
              is_Some (registry st !! s)).

(** Modelled from the spec: the slot of which a claim has a unit, and a
    hold, in hand. *)
Definition staged (t : Task) : option SlotId :=
  match t with
  | Running (ClaimAcquire _ _ s) | Running (ClaimCreate _ _ s) => Some s
  | _ => None
  end.

(** Modelled from the spec: the attempt whose transition a program point
    attempts. *)
Definition targets (pc : Pc) : option BookingId :=
  match pc with
  | ConfirmLoad b _ | ConfirmUpdate b _ | ExpireUpdate _ b _
  | CancelLoad b _ _ | CancelUpdate b _ | CompleteUpdate b _ => Some b
  | _ => None
  end.

(** Modelled from the spec: the answer a task on the release path, or on a
    promotion started from it, gives once it is through; a claim that is
    giving back what it took answers ServiceUnavailable. *)
Definition pending (pc : Pc) : option Result :=
  match pc with
  | ExpireUpdate r _ _ | ExpireReleaseHold r _ _ | ReleaseCapacity r _
  | PromoteDequeue r _
  | ClaimLoad (Promotion r) _ _ | ClaimReserve (Promotion r) _ _
  | ClaimAcquire (Promotion r) _ _ | ClaimCreate (Promotion r) _ _ => Some r
  | _ => None
  end.

(** Modelled from the spec: what a task that owes the answer [r] can be:
    on its way with that answer, giving back what a promoted claim took,
    through with [r], stopped by the guard of its update or by a store that
    is unavailable, or dead. *)
Definition answers (r : Result) (t : Task) : Prop :=
  match t with
  | Running pc =>
      pending pc = Some r ∨
      (∃ u s, pc = ClaimUndoHold u s) ∨ (∃ s, pc = ClaimUndoCapacity s)
  | Finished r' =>
      r' = r ∨ r' = InvalidTransition ∨ r' = ConcurrentModification ∨
      r' = ServiceUnavailable
  | Crashed => True
  end.








(** *** The scenarios of section 8, action by action *)

(** Modelled from the spec: the configuration of Scenario B, TTL of two
    seconds; the queue bound and the inactivity timeout are the defaults of
    the requirements. *)
Definition scenarioConfig : Config :=
  {| ttl := 2; queueMaxSize := 100; inactivityTimeout := 3600 |}.


(** Modelled from the spec: one slot, number 7, of capacity 1. *)
Definition scenarioSlots : gmap nat Slot :=
  {[ 7 := {| startTime := 100; endTime := 200; capacity := 1;
             bookedCount := 0; blocked := false |} ]}.

(** Modelled from the spec: Scenario A, first half: user 1 claims slot 7
    and is served step by step; a second later user 2 claims it too. *)
Definition scenarioQueued : list Action :=
  [Call (OpClaim 1 7); Run 0; Run 0; Run 0; Run 0;
   Tick 1; Call (OpClaim 2 7); Run 1; Run 1; Run 1].

(** Modelled from the spec: Scenario B: user 1 never confirms; after the
    TTL the Scheduler scans and its task is served to the end. *)
Definition scenarioB : list Action :=
  scenarioQueued ++
  [Tick 2; Scan; Run 2; Run 2; Run 2; Run 2; Run 2; Run 2; Run 2; Run 2].


(** Modelled from the spec: user 1 claims again while its attempt is
    RESERVED. *)
Definition scenarioAgain : list Action :=
  scenarioQueued ++ [Call (OpClaim 1 7)].



(** Modelled from the spec: the attempt of user 1 in these scenarios, as
    created and as expired. *)
Definition scenarioAttempt : Booking.t :=
  Booking.Build 1 7 BookingStatus.RESERVED 0 2 None None None 0.

End Core.

(** * Properties of the TypeScript modules *)

(** ** JavaScript lookups *)

Lemma index_Some {A : Type} (arr : list A) (id : JS.number) (x : A) :
  JS.index arr id = Some x ↔
  ∃ z, id = JS.Integral z ∧ (0 ≤ z)%Z ∧ arr !! Z.to_nat z = Some x.
Proof.
  split.
  - destruct id as [z|]; simpl; [|discriminate].
    case_decide; [|discriminate]. intros Hx. by exists z.
  - intros (z & -> & Hz & Hx). simpl. by rewrite decide_True.
Qed.

Lemma index_of_nat {A : Type} (arr : list A) (i : nat) :
  JS.index arr (JS.Integral (Z.of_nat i)) = arr !! i.
Proof.
  simpl. rewrite decide_True by lia. by rewrite Nat2Z.id.
Qed.

Lemma or_undefined (d : string) : JS.or None d = d.
Proof. reflexivity. Qed.

Lemma or_empty (d : string) : JS.or (Some "") d = d.
Proof. reflexivity. Qed.

Lemma or_nonempty (s d : string) : s ≠ "" → JS.or (Some s) d = s.
Proof.
  intros Hs. unfold JS.or, JS.truthy.
  destruct (String.eqb_spec s "") as [->|_]; [done|reflexivity].
Qed.

(** ** SlotService *)

(** An index that names no element, and an element that is the empty
    string, both give the not-found text; any other element is returned. *)
Lemma getSlotById_cases (this : SlotService.t) (id : JS.number) :
  SlotService.getSlotById this id =
    match JS.index (SlotService.slots this) id with
    | Some s => if decide (s = "") then "Slot not found" else s
    | None => "Slot not found"
    end.
Proof.
  unfold SlotService.getSlotById.
  destruct (JS.index _ id) as [s|]; [|reflexivity].
  case_decide as Hs; [by subst|by apply or_nonempty].
Qed.

(** As long as no stored name is empty or is the not-found text itself,
    the not-found text is returned exactly for the indices that name no
    element. *)
Lemma getSlotById_not_found_iff (this : SlotService.t) (id : JS.number) :
  Forall (λ s, s ≠ "" ∧ s ≠ "Slot not found") (SlotService.slots this) →
  SlotService.getSlotById this id = "Slot not found" ↔
  JS.index (SlotService.slots this) id = None.
Proof.
  intros Hnames. rewrite getSlotById_cases.
  destruct (JS.index (SlotService.slots this) id) as [s|] eqn:Hid; [|done].
  apply index_Some in Hid as (z & _ & _ & Hz).
  apply list_elem_of_lookup_2 in Hz.
  rewrite Forall_forall in Hnames. destruct (Hnames s Hz) as [Hne Hnf].
  rewrite decide_False by done. split; [done|discriminate].
Qed.

(** ** No handler changes the application *)

Lemma handle_frame (r : Route) (req : HttpRequest) (app : App) :
  (handle r req app).2 = app.
Proof. destruct app, r; reflexivity. Qed.

Lemma serve_frame (rs : list (Route * HttpRequest)) (app : App) :
  (serve rs app).2 = app.
Proof.
  induction rs as [|[r req] rs IH]; [reflexivity|].
  simpl. pose proof (handle_frame r req app) as Hh.
  destruct (handle r req app) as [reply app1]. simpl in Hh. subst app1.
  destruct (serve rs app) as [replies app2]. simpl in *. by subst.
Qed.

Lemma serve_app (rs1 rs2 : list (Route * HttpRequest)) (app : App) :
  (serve (rs1 ++ rs2) app).1 = (serve rs1 app).1 ++ (serve rs2 app).1.
Proof.
  induction rs1 as [|[r req] rs1 IH]; [reflexivity|].
  simpl. pose proof (handle_frame r req app) as Hh.
  destruct (handle r req app) as [reply app1]. simpl in Hh. subst app1.
  destruct (serve (rs1 ++ rs2) app) as [replies app2].
  destruct (serve rs1 app) as [replies1 app3]. simpl in *. by f_equal.
Qed.

(** ** What the services and handlers do *)

(** C8: for every name, [addSlot name] returns [name]; afterwards
    [getAllSlots] is the previous list with [name] appended at the end: one
    element longer, every earlier index holding what it held, the new last
    index holding [name], nothing beyond. *)
Theorem addSlot_appends (this : SlotService.t) (name : string) :
  let old := SlotService.getAllSlots this in
  let result := SlotService.addSlot this name in
  result.1 = name ∧
  SlotService.getAllSlots result.2 = old ++ [name] ∧
  length (SlotService.getAllSlots result.2) = S (length old) ∧
  ∀ i : nat,
    SlotService.getAllSlots result.2 !! i =
      if decide (i < length old) then old !! i
      else if decide (i = length old) then Some name else None.
Proof.
  simpl. unfold SlotService.getAllSlots. simpl.
  split; [reflexivity|]. split; [reflexivity|]. split.
  - rewrite length_app. simpl. lia.
  - intros i. case_decide as Hlt.
    + by apply lookup_app_l.
    + case_decide as Heq.
      * subst i. rewrite lookup_app_r by lia. by rewrite Nat.sub_diag.
      * apply lookup_ge_None. rewrite length_app. simpl. lia.
Qed.

(** C9: the admin endpoints [createSlot], [updateSlot] and [deleteSlot]
    answer one fixed text each, for every request, every path id and every
    state of the service, and leave the service, hence its slot list, as it
    was. *)
Theorem admin_slot_endpoints_inert (app : App) (req : HttpRequest)
    (id : string) :
  handle POST_admin_slots req app =
    (Text "This action creates a new slot", app) ∧
  handle (PATCH_admin_slots_id id) req app =
    (Text "This action updates a slot", app) ∧
  handle (DELETE_admin_slots_id id) req app =
    (Text "This action deletes a slot", app) ∧
  ∀ s : SlotService.t,
    SlotService.getAllSlots (SlotController.createSlot s).2 =
      SlotService.getAllSlots s ∧
    SlotService.getAllSlots (SlotController.updateSlot s).2 =
      SlotService.getAllSlots s ∧
    SlotService.getAllSlots (SlotController.deleteSlot s).2 =
      SlotService.getAllSlots s.
Proof. destruct app. repeat split. Qed.

(** C10: [joinQueue], [leaveQueue] and [getQueuePosition] answer the
    empty text for every slot id and every request, so two calls with
    different inputs answer alike, and the application is left as it was. *)
Theorem queue_endpoints_inert (app : App) (slotId slotId' : string)
    (req req' : HttpRequest) :
  QueueController.joinQueue slotId req = Text "" ∧
  QueueController.leaveQueue slotId req = Text "" ∧
  QueueController.getQueuePosition slotId req = Text "" ∧
  QueueController.joinQueue slotId req =
    QueueController.joinQueue slotId' req' ∧
  QueueController.leaveQueue slotId req =
    QueueController.leaveQueue slotId' req' ∧
  QueueController.getQueuePosition slotId req =
    QueueController.getQueuePosition slotId' req' ∧
  (handle (POST_slots_id_queue slotId) req app).2 = app ∧
  (handle (DELETE_slots_id_queue slotId) req app).2 = app ∧
  (handle (GET_slots_id_queue_position slotId) req app).2 = app.
Proof. repeat split. Qed.

(** C6: after [addSlot ""] the registry holds a slot at index 3, the empty
    name, and [getSlotById 3] answers the not-found text all the same: the
    [||] of the lookup takes the empty string for a missing element. *)
Theorem getSlotById_misses_empty_name :
  let this := (SlotService.addSlot SlotService.new "").2 in
  SlotService.getAllSlots this !! 3 = Some "" ∧
  JS.index (SlotService.getAllSlots this) (JS.Integral 3) = Some "" ∧
  SlotService.getSlotById this (JS.Integral 3) = "Slot not found".
Proof. repeat split. Qed.

(** [cancelBooking] and [confirmBooking] called in a row for one booking
    id: each call gets its handler's fixed text, whatever the application
    and the requests, and the application is as before. *)
Lemma cancel_and_confirm_replies (app : App) (id : string)
    (req1 req2 req3 : HttpRequest) :
  serve [(POST_bookings_id_cancel id, req1);
         (POST_bookings_id_cancel id, req2);
         (POST_bookings_id_confirm id, req3)] app =
    ([Text "This action cancels a booking";
      Text "This action cancels a booking";
      Text "This action confirms a booking"], app).
Proof. reflexivity. Qed.

(** Two [createBooking] calls in a row get the same fixed text, and the
    application is as before. *)
Lemma reserve_twice_replies (app : App) (req1 req2 : HttpRequest) :
  serve [(POST_bookings_reserve, req1); (POST_bookings_reserve, req2)] app =
    ([Text "This action creates a new booking";
      Text "This action creates a new booking"], app).
Proof. reflexivity. Qed.

(** After any session, a [createBooking] call gets its fixed text and
    [getQueuePosition], called right after, the empty text. *)
Lemma reserve_then_position_replies (rs : list (Route * HttpRequest)) (app : App)
    (slotId : string) (req : HttpRequest) :
  serve (rs ++ [(POST_bookings_reserve, req);
                (GET_slots_id_queue_position slotId, req)]) app =
    ((serve rs app).1 ++
       [Text "This action creates a new booking"; Text ""], app).
Proof.
  rewrite (surjective_pairing (serve _ app)).
  rewrite serve_frame, serve_app. reflexivity.
Qed.

(** [confirmBooking] reads no clock and no expiry: after any session and
    for any booking id, the call gets its fixed text and changes nothing. *)
Lemma confirm_reply_after_session (rs : list (Route * HttpRequest)) (app : App)
    (id : string) (req : HttpRequest) :
  handle (POST_bookings_id_confirm id) req (serve rs app).2 =
    (Text "This action confirms a booking", app).
Proof. rewrite serve_frame. reflexivity. Qed.

(** Two [joinQueue] calls for a slot followed by a [cancelBooking]: the
    joins get the empty text, the cancel its fixed text, and the
    application is as before. *)
Lemma joinQueue_then_cancel_replies (app : App) (slotId bookingId : string)
    (first second other : HttpRequest) :
  serve [(POST_slots_id_queue slotId, first);
         (POST_slots_id_queue slotId, second);
         (POST_bookings_id_cancel bookingId, other)] app =
    ([Text ""; Text ""; Text "This action cancels a booking"], app).
Proof. reflexivity. Qed.

(** * Properties of the reservation core *)

Module CoreFacts.
Import Core.

(** ** Counting attempts and units *)

Lemma active_nil (slotId : nat) : active slotId [] = 0.
Proof. reflexivity. Qed.

Lemma active_cons (slotId : nat) (b : Booking.t) (bs : list Booking.t) :
  active slotId (b :: bs) = weight slotId b + active slotId bs.
Proof.
  unfold active, weight. rewrite filter_cons.
  case_decide; reflexivity.
Qed.

Lemma active_app (slotId : nat) (bs1 bs2 : list Booking.t) :
  active slotId (bs1 ++ bs2) = active slotId bs1 + active slotId bs2.
Proof.
  unfold active. by rewrite filter_app, length_app.
Qed.

Lemma active_insert (slotId i : nat) (b b' : Booking.t) (bs : list Booking.t) :
  bs !! i = Some b →
  active slotId (<[i := b']> bs) + weight slotId b =
  active slotId bs + weight slotId b'.
Proof.
  intros Hi.
  rewrite <- (take_drop_middle bs i b Hi) at 2.
  rewrite insert_take_drop by (by eapply lookup_lt_Some).
  rewrite !active_app, !active_cons. lia.
Qed.

Lemma owed_app (slotId : nat) (ts1 ts2 : list Task) :
  owed slotId (ts1 ++ ts2) = owed slotId ts1 + owed slotId ts2.
Proof. apply sum_list_with_app. Qed.

Lemma owed_insert (slotId k : nat) (t t' : Task) (ts : list Task) :
  ts !! k = Some t →
  owed slotId (<[k := t']> ts) + owes slotId t =
  owed slotId ts + owes slotId t'.
Proof.
  intros Hk.
  rewrite <- (take_drop_middle ts k t Hk) at 2.
  rewrite insert_take_drop by (by eapply lookup_lt_Some).
  rewrite !owed_app. unfold owed. simpl. lia.
Qed.

(** Tasks that enter the system hold no unit. *)
Lemma owed_omap {A : Type} (slotId : nat) (f : A → option Task) (l : list A) :
  (∀ a t, f a = Some t → owes slotId t = 0) →
  owed slotId (omap f l) = 0.
Proof.
  intros Hf. induction l as [|a l IH]; [done|]. simpl.
  destruct (f a) as [t|] eqn:Ha; [|done].
  change (owes slotId t + owed slotId (omap f l) = 0).
  by rewrite (Hf a t Ha), IH.
Qed.

Lemma owed_due (slotId : nat) (now : Z) (bs : list Booking.t) :
  owed slotId (due now bs) = 0.
Proof.
  apply owed_omap. intros ib t. destruct (_ && _); [|done]. by intros [= <-].
Qed.

Lemma owed_unheld (slotId : nat) (now : Z) (bs : list Booking.t)
    (h : gmap (nat * nat) Z) :
  owed slotId (unheld now bs h) = 0.
Proof.
  apply owed_omap. intros ib t. destruct (_ && _); [|done]. by intros [= <-].
Qed.

Lemma owed_orphans (slotId : nat) (now : Z) (bs : list Booking.t)
    (h : gmap (nat * nat) Z) :
  owed slotId (orphans now bs h) = 0.
Proof.
  apply owed_omap. intros kv t. destruct (_ && _); [|done]. by intros [= <-].
Qed.

Lemma owed_ended (slotId : nat) (now : Z) (reg : gmap nat Slot)
    (bs : list Booking.t) :
  owed slotId (ended now reg bs) = 0.
Proof.
  apply owed_omap. intros ib t. destruct (reg !! _); [|done].
  destruct (_ && _); [|done]. by intros [= <-].
Qed.

(** ** The guarded update *)

Lemma update_Updated (from : BookingStatus.t → bool)
    (to : Booking.t → Booking.t) (i v : nat) (bs bs' : list Booking.t)
    (b : Booking.t) :
  update from to i v bs = Updated b bs' →
  bs !! i = Some b ∧ from (Booking.status b) = true ∧
  Booking.version b = v ∧ bs' = <[i := to b]> bs.
Proof.
  unfold update. destruct (bs !! i) as [b0|] eqn:Hi; [|done].
  destruct (from (Booking.status b0)) eqn:Hfrom; [|done]. simpl.
  case_bool_decide as Hv; [done|]. intros [= <- <-].
  repeat split; [done|]. destruct (decide (Booking.version b0 = v)); done.
Qed.

Lemma tryReserveCapacity_ok (now : Z) (slotId : nat) (reg reg' : gmap nat Slot) :
  tryReserveCapacity now slotId reg = (ReserveOk, reg') →
  ∃ s, reg !! slotId = Some s ∧ (bookedCount s < capacity s)%Z ∧
       reg' = <[slotId := addBooked 1 s]> reg.
Proof.
  unfold tryReserveCapacity. destruct (reg !! slotId) as [s|]; [|done].
  destruct (negb (claimable now s)); [done|].
  case_bool_decide as Hlt; [|done].
  intros [= <-]. by exists s.
Qed.

(** ** Which tasks an action touches *)

Lemma exec_tasks (cfg : Config) (k : nat) (pc : Pc) (st : State) :
  ∃ t, tasks (exec cfg k pc st) = <[k := t]> (tasks st).
Proof.
  destruct pc; simpl;
    repeat match goal with
           | |- context [match ?x with _ => _ end] => destruct x
           end; simpl; eauto.
Qed.

Lemma step_tasks (cfg : Config) (st : State) (a : Action) (k : nat) (t : Task) :
  tasks st !! k = Some t →
  a ≠ Run k → a ≠ Fail k → a ≠ Crash k →
  tasks (step cfg st a) !! k = Some t.
Proof.
  intros Hk Hrun Hfail Hcrash. destruct a as [d|op| | | |j|j|j|s b]; simpl;
    try done; try (by apply lookup_app_l_Some).
  - destruct (tasks st !! j) as [[pc| |]|] eqn:Hj; try done.
    destruct (exec_tasks cfg j pc st) as [t' ->].
    rewrite list_lookup_insert_ne; [done|congruence].
  - destruct (tasks st !! j) as [[pc| |]|] eqn:Hj; try done. simpl.
    rewrite list_lookup_insert_ne; [done|congruence].
  - destruct (tasks st !! j) as [[pc| |]|] eqn:Hj; try done. simpl.
    rewrite list_lookup_insert_ne; [done|congruence].
Qed.

(** What an action makes of a task: nothing, unless it is the task's own
    store operation, its failure or its death. *)
Lemma step_task (cfg : Config) (st : State) (a : Action) (k : nat) (t : Task) :
  tasks st !! k = Some t →
  tasks (step cfg st a) !! k = Some t ∨
  ∃ pc, t = Running pc ∧
    ((a = Run k ∧ step cfg st a = exec cfg k pc st) ∨
     (a = Fail k ∧ tasks (step cfg st a) !! k = Some (failed pc)) ∨
     (a = Crash k ∧ tasks (step cfg st a) !! k = Some Crashed)).
Proof.
  intros Hk.
  assert (k < length (tasks st)) as Hlen by by eapply lookup_lt_Some.
  destruct a as [d|op| | | |j|j|j|s b];
    try (left; by apply step_tasks).
  - destruct (decide (j = k)) as [->|Hne];
      [|left; apply step_tasks; congruence].
    simpl. rewrite Hk. destruct t as [pc| |]; [|by left..].
    right. exists pc. split; [done|]. by left.
  - destruct (decide (j = k)) as [->|Hne];
      [|left; apply step_tasks; congruence].
    simpl. rewrite Hk. destruct t as [pc| |]; [|by left..].
    right. exists pc. split; [done|]. right; left. split; [done|].
    simpl. by rewrite list_lookup_insert_eq.
  - destruct (decide (j = k)) as [->|Hne];
      [|left; apply step_tasks; congruence].
    simpl. rewrite Hk. destruct t as [pc| |]; [|by left..].
    right. exists pc. split; [done|]. right; right. split; [done|].
    simpl. by rewrite list_lookup_insert_eq.
Qed.

(** ** The capacity invariant, with its bookkeeping, survives every action *)

Section Accounting.
Context (cfg : Config).

(** Neither the registry nor the units change: the attempts and the tasks
    may only give up what they had. *)
Lemma accounted_shrink (st st' : State) :
  accounted st →
  registry st' = registry st →
  (∀ s, active s (bookings st') + owed s (tasks st') ≤
        active s (bookings st) + owed s (tasks st)) →
  accounted st'.
Proof.
  intros Hacc Hreg Hle s slot. rewrite Hreg. intros Hs.
  destruct (Hacc s slot Hs). specialize (Hle s). lia.
Qed.

(** A unit is reserved on [s0] and passes to a task. *)
Lemma accounted_reserve (st st' : State) (s0 : nat) (slot0 : Slot) :
  accounted st →
  registry st !! s0 = Some slot0 → (bookedCount slot0 < capacity slot0)%Z →
  registry st' = <[s0 := addBooked 1 slot0]> (registry st) →
  (∀ s, active s (bookings st') + owed s (tasks st') ≤
        active s (bookings st) + owed s (tasks st) +
        (if decide (s0 = s) then 1 else 0)) →
  accounted st'.
Proof.
  intros Hacc Hs0 Hlt Hreg Hle s slot. rewrite Hreg, lookup_insert.
  specialize (Hle s). case_decide as Heq.
  - intros [= <-]. subst s. destruct (Hacc s0 slot0 Hs0). simpl. lia.
  - intros Hs. destruct (Hacc s slot Hs). lia.
Qed.

(** A task gives back the unit of [s0] it was answerable for. *)
Lemma accounted_release (st st' : State) (s0 : nat) :
  accounted st →
  registry st' = releaseCapacity s0 (registry st) →
  (∀ s, active s (bookings st') + owed s (tasks st') +
        (if decide (s0 = s) then 1 else 0) ≤
        active s (bookings st) + owed s (tasks st)) →
  accounted st'.
Proof.
  intros Hacc Hreg Hle s slot. rewrite Hreg. unfold releaseCapacity.
  rewrite lookup_alter. specialize (Hle s). case_decide as Heq.
  - subst s. destruct (registry st !! s0) as [slot0|] eqn:Hs0; [|done].
    intros [= <-]. destruct (Hacc s0 slot0 Hs0). simpl. lia.
  - intros Hs. destruct (Hacc s slot Hs). lia.
Qed.

Lemma accounted_block (st : State) (s0 : nat) (b : bool) :
  accounted st →
  accounted (withRegistry (alter (setBlocked b) s0 (registry st)) st).
Proof.
  intros Hacc s slot. simpl. rewrite lookup_alter. case_decide as Heq.
  - subst s. destruct (registry st !! s0) as [slot0|] eqn:Hs0; [|done].
    intros [= <-]. by destruct (Hacc s0 slot0 Hs0).
  - apply Hacc.
Qed.

Lemma owes_failed (s : nat) (pc : Pc) : owes s (failed pc) ≤ owes s (Running pc).
Proof. destruct pc; simpl; lia. Qed.

(** The units of a task that moves on, against the units it had. *)
Ltac units :=
  intros ?s; simpl;
  repeat match goal with
         | H : ?ts !! ?k = Some ?t
           |- context [owed ?s (<[?k := ?t']> ?ts)] =>
             pose proof (owed_insert s k t t' ts H); revert H
         end; intros;
  repeat match goal with
         | H : ?bs !! ?i = Some ?b
           |- context [active ?s (<[?i := ?b']> ?bs)] =>
             pose proof (active_insert s i b b' bs H); revert H
         end; intros;
  rewrite ?active_app, ?active_cons, ?active_nil in *;
  unfold weight, owes, granted, refused, contended, rejectedUpdate in *;
  simpl in *;
  repeat match goal with
         | H : Booking.status ?b = _ |- _ => rewrite !H in *; clear H
         end; simpl in *;
  repeat match goal with
         | o : Origin |- _ => destruct o
         end; simpl in *;
  repeat case_decide; simpl in *;
  try lia; try (exfalso; intuition congruence).

Lemma exec_accounted (k : nat) (pc : Pc) (st : State) :
  tasks st !! k = Some (Running pc) →
  accounted st → accounted (exec cfg k pc st).
Proof.
  intros Hk Hacc. destruct pc; simpl.
  - (* ClaimLoad *)
    destruct (getSlot slotId st); [|eapply accounted_shrink; [done..|units]].
    destruct (findAttempt userId slotId (bookings st)) as [[i b]|];
      (eapply accounted_shrink; [done..|units]).
  - (* ClaimReserve *)
    destruct (tryReserveCapacity (clock st) slotId (registry st))
      as [[] reg] eqn:Htry.
    + apply tryReserveCapacity_ok in Htry as (s & Hs & Hlt & ->).
      eapply accounted_reserve; [done..|units].
    + eapply accounted_shrink; [done..|units].
    + eapply accounted_shrink; [done..|units].
  - (* ClaimAcquire *)
    destruct (acquire (clock st) (slotId, userId) (ttl cfg) (holds st));
      (eapply accounted_shrink; [done..|units]).
  - (* ClaimCreate *)
    destruct (findAttempt userId slotId (bookings st)) as [[i b]|];
      (eapply accounted_shrink; [done..|units]).
  - eapply accounted_shrink; [done..|units].
  - eapply accounted_release; [done..|units].
  - (* ClaimEnqueue *)
    destruct (enqueue cfg slotId userId (clock st) (queues st)) as [[] qs];
      (eapply accounted_shrink; [done..|units]).
  - (* ConfirmLoad *)
    destruct (bookings st !! bookingId) as [b|];
      [|eapply accounted_shrink; [done..|units]].
    destruct (negb _); [eapply accounted_shrink; [done..|units]|].
    case_bool_decide; (eapply accounted_shrink; [done..|units]).
  - (* ConfirmUpdate *)
    destruct (update _ _ _ _ _) as [b bs| |] eqn:Hup;
      [|eapply accounted_shrink; [done..|units]..].
    apply update_Updated in Hup as (Hb & Hfrom & _ & ->).
    eapply accounted_shrink; [done..|].
    destruct (Booking.status b) eqn:Hst; try done. units.
  - eapply accounted_shrink; [done..|units].
  - (* ExpireUpdate *)
    destruct (update _ _ _ _ _) as [b bs| |] eqn:Hup;
      [|eapply accounted_shrink; [done..|units]..].
    apply update_Updated in Hup as (Hb & Hfrom & _ & ->).
    eapply accounted_shrink; [done..|].
    destruct (Booking.status b) eqn:Hst; try done. units.
  - eapply accounted_shrink; [done..|units].
  - eapply accounted_release; [done..|units].
  - (* PromoteDequeue *)
    destruct (dequeueFront cfg (clock st) slotId (queues st)) as [[e|] qs];
      (eapply accounted_shrink; [done..|units]).
  - (* CancelLoad *)
    destruct (bookings st !! bookingId) as [b|];
      [|eapply accounted_shrink; [done..|units]].
    destruct (negb _); [eapply accounted_shrink; [done..|units]|].
    destruct (getSlot (Booking.slotId b) st);
      [|eapply accounted_shrink; [done..|units]].
    case_bool_decide; (eapply accounted_shrink; [done..|units]).
  - (* CancelUpdate *)
    destruct (update _ _ _ _ _) as [b bs| |] eqn:Hup;
      [|eapply accounted_shrink; [done..|units]..].
    apply update_Updated in Hup as (Hb & Hfrom & _ & ->).
    eapply accounted_shrink; [done..|].
    destruct (Booking.status b) eqn:Hst; try done. units.
  - (* CompleteUpdate *)
    destruct (update _ _ _ _ _) as [b bs| |] eqn:Hup;
      [|eapply accounted_shrink; [done..|units]..].
    apply update_Updated in Hup as (Hb & Hfrom & _ & ->).
    eapply accounted_shrink; [done..|].
    destruct (Booking.status b) eqn:Hst; try done. units.
  - (* DeleteHold *)
    case_bool_decide; (eapply accounted_shrink; [done..|units]).
  - destruct (leave cfg (clock st) slotId userId (queues st)) as [found qs].
    eapply accounted_shrink; [done..|units].
  - eapply accounted_shrink; [done..|units].
Qed.

Lemma step_accounted (st : State) (a : Action) :
  accounted st → accounted (step cfg st a).
Proof.
  intros Hacc. destruct a as [d|op| | | |k|k|k|s b]; simpl.
  - done.
  - eapply accounted_shrink; [done..|]. intros s. simpl.
    rewrite owed_app. unfold owed at 2. simpl. destruct op; simpl; lia.
  - eapply accounted_shrink; [done..|]. intros s. simpl.
    rewrite owed_app, owed_due. lia.
  - eapply accounted_shrink; [done..|]. intros s. simpl.
    rewrite !owed_app, owed_unheld, owed_orphans. lia.
  - eapply accounted_shrink; [done..|]. intros s. simpl.
    rewrite owed_app, owed_ended. lia.
  - destruct (tasks st !! k) as [[pc| |]|] eqn:Hk; try done.
    by apply exec_accounted.
  - destruct (tasks st !! k) as [[pc| |]|] eqn:Hk; try done.
    eapply accounted_shrink; [done..|]. intros s. simpl.
    pose proof (owed_insert s k _ (failed pc) _ Hk).
    pose proof (owes_failed s pc). lia.
  - destruct (tasks st !! k) as [[pc| |]|] eqn:Hk; try done.
    eapply accounted_shrink; [done..|]. intros s. simpl.
    pose proof (owed_insert s k _ Crashed _ Hk). simpl in *. lia.
  - by apply accounted_block.
Qed.

Lemma run_accounted (acts : list Action) (st : State) :
  accounted st → accounted (run cfg acts st).
Proof.
  revert st. induction acts as [|a acts IH]; intros st Hacc; [done|].
  simpl. by apply IH, step_accounted.
Qed.

Lemma initial_accounted (t0 : Z) (slots : gmap nat Slot) :
  freshRegistry slots → accounted (initial t0 slots).
Proof.
  intros Hfresh s slot Hs. destruct (Hfresh s slot Hs) as (_ & Hcap & Hb).
  simpl. rewrite Hb. unfold owed. simpl. lia.
Qed.

End Accounting.

(** ** How the Booking Attempt table changes *)

Section Table.
Context (cfg : Config).

(** A store operation leaves the table alone, or appends a RESERVED attempt
    for a user who has no non-terminal attempt on the slot, or rewrites one
    non-terminal attempt, keeping its user and slot. *)
Lemma exec_bookings (k : nat) (pc : Pc) (st : State) :
  bookings (exec cfg k pc st) = bookings st ∨
  (∃ o u s, pc = ClaimCreate o u s ∧
     findAttempt u s (bookings st) = None ∧
     bookings (exec cfg k pc st) =
       bookings st ++ [newBooking cfg (clock st) u s]) ∨
  (∃ i b b', bookings st !! i = Some b ∧
     targets pc = Some i ∧
     bookings (exec cfg k pc st) = <[i := b']> (bookings st) ∧
     Booking.userId b' = Booking.userId b ∧
     Booking.slotId b' = Booking.slotId b ∧
     BookingStatus.terminal (Booking.status b) = false ∧
     (BookingStatus.reserved (Booking.status b) = true ∨
      BookingStatus.terminal (Booking.status b') = true)).
Proof.
  destruct pc; simpl;
    try (left;
         repeat match goal with
                | |- context [match ?x with _ => _ end] => destruct x
                end; reflexivity).
  - (* ClaimCreate *)
    destruct (findAttempt userId slotId (bookings st)) as [[i b]|] eqn:Hfind;
      [by left|]. right; left. by exists o, userId, slotId.
  - (* ConfirmUpdate *)
    destruct (update _ _ _ _ _) as [b bs| |] eqn:Hup; [|by left..].
    apply update_Updated in Hup as (Hb & Hfrom & _ & ->).
    right; right. exists bookingId, b, (confirmed (clock st) b).
    destruct (Booking.status b); try done. simpl. by repeat split; auto.
  - (* ExpireUpdate *)
    destruct (update _ _ _ _ _) as [b bs| |] eqn:Hup; [|by left..].
    apply update_Updated in Hup as (Hb & Hfrom & _ & ->).
    right; right. exists bookingId, b, (expired b).
    destruct (Booking.status b); try done. simpl. by repeat split; auto.
  - (* CancelUpdate *)
    destruct (update _ _ _ _ _) as [b bs| |] eqn:Hup; [|by left..].
    apply update_Updated in Hup as (Hb & Hfrom & _ & ->).
    right; right. exists bookingId, b, (cancelled (clock st) b).
    destruct (Booking.status b); try done. simpl. by repeat split; auto.
  - (* CompleteUpdate *)
    destruct (update _ _ _ _ _) as [b bs| |] eqn:Hup; [|by left..].
    apply update_Updated in Hup as (Hb & Hfrom & _ & ->).
    right; right. exists bookingId, b, (completed (clock st) b).
    destruct (Booking.status b); try done. simpl. by repeat split; auto.
Qed.

Lemma step_bookings (st : State) (a : Action) :
  bookings (step cfg st a) = bookings st ∨
  (∃ u s, findAttempt u s (bookings st) = None ∧
     bookings (step cfg st a) =
       bookings st ++ [newBooking cfg (clock st) u s]) ∨
  (∃ i b b', bookings st !! i = Some b ∧
     bookings (step cfg st a) = <[i := b']> (bookings st) ∧
     Booking.userId b' = Booking.userId b ∧
     Booking.slotId b' = Booking.slotId b ∧
     BookingStatus.terminal (Booking.status b) = false ∧
     (BookingStatus.reserved (Booking.status b) = true ∨
      BookingStatus.terminal (Booking.status b') = true)).
Proof.
  destruct a as [d|op| | | |k|k|k|s b]; simpl; try by left.
  - destruct (tasks st !! k) as [[pc| |]|]; try by left.
    destruct (exec_bookings k pc st)
      as [H|[(o & u & s & _ & Hnone & H)|(i & b & b' & Hb & _ & H)]].
    + by left.
    + right; left. by exists u, s.
    + right; right. by exists i, b, b'.
  - destruct (tasks st !! k) as [[pc| |]|]; by left.
  - destruct (tasks st !! k) as [[pc| |]|]; by left.
Qed.

(** ** Terminal attempts never change *)

Lemma step_terminal (st : State) (a : Action) (i : nat) (b : Booking.t) :
  bookings st !! i = Some b →
  BookingStatus.terminal (Booking.status b) = true →
  bookings (step cfg st a) !! i = Some b.
Proof.
  intros Hi Hterm.
  destruct (step_bookings st a)
    as [->|[(u & s & _ & ->)|(j & bj & b' & Hj & -> & _ & _ & Hlive & _)]].
  - done.
  - by apply lookup_app_l_Some.
  - rewrite list_lookup_insert_ne; [done|]. intros ->. congruence.
Qed.

Lemma run_terminal (acts : list Action) (st : State) (i : nat) (b : Booking.t) :
  bookings st !! i = Some b →
  BookingStatus.terminal (Booking.status b) = true →
  bookings (run cfg acts st) !! i = Some b.
Proof.
  revert st. induction acts as [|a acts IH]; intros st Hi Hterm; [done|].
  simpl. apply IH; [|done]. by apply step_terminal.
Qed.

(** A task whose next store operation attempts a transition of a terminal
    attempt is answered InvalidTransition, and no store changes. *)
Lemma exec_terminal (k : nat) (pc : Pc) (st : State) (i : nat) (b : Booking.t) :
  tasks st !! k = Some (Running pc) →
  targets pc = Some i →
  bookings st !! i = Some b →
  BookingStatus.terminal (Booking.status b) = true →
  tasks (exec cfg k pc st) !! k = Some (Finished InvalidTransition) ∧
  stores (exec cfg k pc st) = stores st.
Proof.
  intros Hk Htarget Hi Hterm.
  assert (k < length (tasks st)) as Hlen by by eapply lookup_lt_Some.
  destruct pc; simpl in Htarget; try done; injection Htarget as ->;
    simpl; unfold update; rewrite Hi;
    destruct (Booking.status b); try done; simpl;
    by rewrite list_lookup_insert_eq.
Qed.

(** ** The uniqueness invariant *)

Lemma unique_nil : unique [].
Proof. intros i j bi bj Hi. by rewrite lookup_nil in Hi. Qed.

Lemma unique_create (bs : list Booking.t) (b : Booking.t) :
  unique bs →
  findAttempt (Booking.userId b) (Booking.slotId b) bs = None →
  unique (bs ++ [b]).
Proof.
  intros Hu Hnone. unfold findAttempt in Hnone.
  rewrite list_find_None, Forall_forall in Hnone.
  assert (∀ k x, bs !! k = Some x →
            Booking.userId x = Booking.userId b →
            Booking.slotId x = Booking.slotId b →
            BookingStatus.terminal (Booking.status x) = false → False)
    as Hfresh.
  { intros k x Hk Hux Hsx Hlive. apply (Hnone x); [|done].
    by eapply list_elem_of_lookup_2. }
  intros i j bi bj Hi Hj Huser Hslot Hli Hlj.
  apply lookup_app_Some in Hi as [Hi | [Hi Hi']];
    apply lookup_app_Some in Hj as [Hj | [Hj Hj']].
  - by eapply Hu.
  - apply list_lookup_singleton_Some in Hj' as [_ <-].
    by destruct (Hfresh i bi).
  - apply list_lookup_singleton_Some in Hi' as [_ <-].
    by destruct (Hfresh j bj).
  - apply list_lookup_singleton_Some in Hi' as [Hi' _].
    apply list_lookup_singleton_Some in Hj' as [Hj' _]. lia.
Qed.

Lemma unique_update (bs : list Booking.t) (i : nat) (b b' : Booking.t) :
  unique bs → bs !! i = Some b →
  Booking.userId b' = Booking.userId b →
  Booking.slotId b' = Booking.slotId b →
  (BookingStatus.terminal (Booking.status b') = false →
   BookingStatus.terminal (Booking.status b) = false) →
  unique (<[i := b']> bs).
Proof.
  intros Hu Hi Huser Hslot Hlive.
  assert (∀ k x, <[i := b']> bs !! k = Some x →
            ∃ y, bs !! k = Some y ∧
                 Booking.userId y = Booking.userId x ∧
                 Booking.slotId y = Booking.slotId x ∧
                 (BookingStatus.terminal (Booking.status x) = false →
                  BookingStatus.terminal (Booking.status y) = false))
    as Hback.
  { intros k x Hk. apply list_lookup_insert_Some in Hk
      as [(<- & <- & _) | [_ Hk]]; [by exists b|by exists x]. }
  intros j k bj bk Hj Hk Hsu Hss Hlj Hlk.
  destruct (Hback j bj Hj) as (yj & Hyj & Huj & Hsj & Htj).
  destruct (Hback k bk Hk) as (yk & Hyk & Huk & Hsk & Htk).
  apply (Hu j k yj yk); [done|done|congruence|congruence|auto|auto].
Qed.

Lemma step_unique (st : State) (a : Action) :
  unique (bookings st) → unique (bookings (step cfg st a)).
Proof.
  intros Hu.
  destruct (step_bookings st a)
    as [->|[(u & s & Hnone & ->)|(i & b & b' & Hb & -> & Hus & Hsl & Hlive & _)]].
  - done.
  - by apply unique_create.
  - by apply (unique_update _ _ b).
Qed.

Lemma run_unique (acts : list Action) (st : State) :
  unique (bookings st) → unique (bookings (run cfg acts st)).
Proof.
  revert st. induction acts as [|a acts IH]; intros st Hu; [done|].
  simpl. by apply IH, step_unique.
Qed.

End Table.

(** ** Slots of attempts and of reserved units are in the registry *)

Section Ground.
Context (cfg : Config).

Lemma exec_registry (k : nat) (pc : Pc) (st : State) (s : nat) :
  is_Some (registry st !! s) → is_Some (registry (exec cfg k pc st) !! s).
Proof.
  intros Hs. destruct pc; simpl;
    repeat match goal with
           | |- context [match ?x with _ => _ end] => destruct x eqn:?
           end; simpl; try done.
  - (* ClaimReserve, unit taken *)
    match goal with
    | H : tryReserveCapacity _ _ _ = _ |- _ =>
        apply tryReserveCapacity_ok in H as (slot & _ & _ & ->)
    end.
    rewrite lookup_insert. by case_decide.
  - unfold releaseCapacity. rewrite lookup_alter.
    case_decide; [subst; by apply fmap_is_Some|done].
  - unfold releaseCapacity. rewrite lookup_alter.
    case_decide; [subst; by apply fmap_is_Some|done].
Qed.

Lemma step_registry (st : State) (a : Action) (s : nat) :
  is_Some (registry st !! s) → is_Some (registry (step cfg st a) !! s).
Proof.
  intros Hs. destruct a as [d|op| | | |k|k|k|s0 b]; simpl; try done.
  - destruct (tasks st !! k) as [[pc| |]|]; try done. by apply exec_registry.
  - by destruct (tasks st !! k) as [[pc| |]|].
  - by destruct (tasks st !! k) as [[pc| |]|].
  - rewrite lookup_alter. case_decide; [subst; by apply fmap_is_Some|done].
Qed.

Lemma exec_staged (k : nat) (pc : Pc) (st : State) (t : Task) (s : nat) :
  tasks (exec cfg k pc st) !! k = Some t →
  staged t = Some s →
  is_Some (registry st !! s) ∨ staged (Running pc) = Some s.
Proof.
  assert (∀ (ts : list Task) t', <[k := t']> ts !! k = Some t → t' = t)
    as Hins.
  { intros ts t' H. apply list_lookup_insert_Some in H as [(_ & ? & _)|[? _]];
      done. }
  destruct pc; simpl;
    repeat match goal with
           | |- context [match ?x with _ => _ end] => destruct x eqn:?
           end; simpl;
    intros Ht%Hins; subst t; simpl;
    repeat match goal with
           | o : Origin |- _ => destruct o
           end; simpl; try done;
    intros [= <-]; try (by right).
  all: left;
    match goal with
    | H : tryReserveCapacity _ _ _ = _ |- _ =>
        apply tryReserveCapacity_ok in H as (slot & -> & _ & _)
    end; done.
Qed.

Lemma spawned_not_staged {A : Type} (f : A → option Task) (l : list A) :
  (∀ a t, f a = Some t → staged t = None) →
  Forall (λ t, staged t = None) (omap f l).
Proof.
  intros Hf. induction l as [|a l IH]; simpl; [done|].
  destruct (f a) as [t|] eqn:Ha; [|done]. constructor; [by eapply Hf|done].
Qed.

Lemma step_spawned_staged (st : State) (a : Action) (k : nat) (t : Task) :
  tasks st !! k = None →
  tasks (step cfg st a) !! k = Some t →
  staged t = None.
Proof.
  intros Hnone.
  assert (∀ ts, Forall (λ t, staged t = None) ts →
            (tasks st ++ ts) !! k = Some t → staged t = None) as Happ.
  { intros ts Hall Hk. apply lookup_app_Some in Hk as [Hk|[_ Hk]];
      [congruence|]. rewrite Forall_forall in Hall.
    apply Hall. by eapply list_elem_of_lookup_2. }
  destruct a as [d|op| | | |j|j|j|s0 b]; simpl; try congruence.
  - apply Happ. constructor; [by destruct op|done].
  - apply Happ, spawned_not_staged. intros ib t0.
    destruct (_ && _); [|done]. by intros [= <-].
  - apply Happ, Forall_app. split; apply spawned_not_staged.
    + intros ib t0. destruct (_ && _); [|done]. by intros [= <-].
    + intros kv t0. destruct (_ && _); [|done]. by intros [= <-].
  - apply Happ, spawned_not_staged. intros ib t0.
    destruct (registry st !! _); [|done].
    destruct (_ && _); [|done]. by intros [= <-].
  - destruct (tasks st !! j) as [[pc| |]|] eqn:Hj; try congruence.
    destruct (exec_tasks cfg j pc st) as [t' ->].
    intros Hk. apply lookup_lt_Some in Hk. rewrite length_insert in Hk.
    apply lookup_ge_None in Hnone. lia.
  - destruct (tasks st !! j) as [[pc| |]|] eqn:Hj; try congruence. simpl.
    intros Hk. apply lookup_lt_Some in Hk. rewrite length_insert in Hk.
    apply lookup_ge_None in Hnone. lia.
  - destruct (tasks st !! j) as [[pc| |]|] eqn:Hj; try congruence. simpl.
    intros Hk. apply lookup_lt_Some in Hk. rewrite length_insert in Hk.
    apply lookup_ge_None in Hnone. lia.
Qed.

Lemma grounded_staged (st : State) :
  grounded st ↔
  (∀ i b, bookings st !! i = Some b →
          is_Some (registry st !! Booking.slotId b)) ∧
  (∀ k t s, tasks st !! k = Some t → staged t = Some s →
            is_Some (registry st !! s)).
Proof.
  unfold grounded. split; intros [Hb Ht]; (split; [done|]).
  - intros k t s Hk Hs. destruct t as [[]| |]; simpl in Hs; try done;
      injection Hs as ->; eapply Ht; eauto.
  - intros k o u s [Hk|Hk]; by eapply Ht.
Qed.

Lemma step_grounded (st : State) (a : Action) :
  grounded st → grounded (step cfg st a).
Proof.
  rewrite !grounded_staged. intros [Hb Ht]. split.
  - (* attempts *)
    intros i b Hi. apply step_registry.
    destruct a as [d|op| | | |k|k|k|s0 bl]; simpl in Hi; try by eapply Hb.
    + destruct (tasks st !! k) as [[pc| |]|] eqn:Hk; try by eapply Hb.
      destruct (exec_bookings cfg k pc st)
        as [H|[(o & u & s & -> & Hnone & H)|(j & bj & b' & Hj & _ & H & _ & Hsl & _)]];
        rewrite H in Hi.
      * by eapply Hb.
      * apply lookup_app_Some in Hi as [Hi|[_ Hi]]; [by eapply Hb|].
        apply list_lookup_singleton_Some in Hi as [_ <-]. simpl.
        by eapply (Ht k _ s Hk).
      * apply list_lookup_insert_Some in Hi as [(<- & <- & _)|[_ Hi]];
          [rewrite Hsl|]; by eapply Hb.
    + destruct (tasks st !! k) as [[pc| |]|]; by eapply Hb.
    + destruct (tasks st !! k) as [[pc| |]|]; by eapply Hb.
  - (* tasks *)
    intros k t s Hk Hs.
    destruct (tasks st !! k) as [t0|] eqn:Hk0;
      [|by rewrite (step_spawned_staged st a k t Hk0 Hk) in Hs].
    apply step_registry.
    destruct (step_task cfg st a k t0 Hk0)
      as [Hsame|(pc & -> & [[-> Hexec]|[[-> Hfail]|[-> Hcrash]]])].
    + rewrite Hsame in Hk. injection Hk as <-. by eapply Ht.
    + rewrite Hexec in Hk.
      destruct (exec_staged k pc st t s Hk Hs) as [?|Hpc]; [done|].
      by eapply Ht.
    + rewrite Hfail in Hk. injection Hk as <-. by destruct pc.
    + rewrite Hcrash in Hk. by injection Hk as <-.
Qed.

Lemma run_grounded (acts : list Action) (st : State) :
  grounded st → grounded (run cfg acts st).
Proof.
  revert st. induction acts as [|a acts IH]; intros st Hg; [done|].
  simpl. by apply IH, step_grounded.
Qed.

Lemma initial_grounded (t0 : Z) (slots : gmap nat Slot) :
  grounded (initial t0 slots).
Proof.
  split; [intros i b Hi|intros k o u s [Hk|Hk]]; simpl in *;
    by rewrite lookup_nil in *.
Qed.

(** The non-terminal attempt of a user on a slot is the one the table
    finds. *)
Lemma findAttempt_unique (bs : list Booking.t) (i : nat) (b : Booking.t) :
  unique bs → bs !! i = Some b →
  BookingStatus.terminal (Booking.status b) = false →
  findAttempt (Booking.userId b) (Booking.slotId b) bs = Some (i, b).
Proof.
  intros Hu Hi Hlive. unfold findAttempt.
  destruct (list_find _ bs) as [[j bj]|] eqn:Hfind.
  - apply list_find_Some in Hfind as (Hj & (Hus & Hsl & Hlj) & _).
    assert (j = i) as -> by by eapply Hu. congruence.
  - rewrite list_find_None, Forall_forall in Hfind.
    destruct (Hfind b); [by eapply list_elem_of_lookup_2|done].
Qed.

End Ground.

(** ** Wait Queues stay in arrival order *)

Section Queues.
Context (cfg : Config).


















End Queues.

(** ** The answer a task on the release path owes *)

Section Answers.
Context (cfg : Config).

Lemma exec_answers (r : Result) (k : nat) (pc : Pc) (st : State) :
  tasks st !! k = Some (Running pc) →
  answers r (Running pc) →
  ∃ t, tasks (exec cfg k pc st) !! k = Some t ∧ answers r t.
Proof.
  intros Hk Hans.
  assert (k < length (tasks st)) as Hlen by by eapply lookup_lt_Some.
  destruct Hans as [Hpend|[(u & s & ->)|(s & ->)]].
  - destruct pc; simpl in Hpend; try done;
      repeat match goal with
             | o : Origin |- _ => destruct o; try done
             end; injection Hpend as ->; simpl;
      repeat match goal with
             | |- context [match ?x with _ => _ end] => destruct x
             end; simpl; rewrite list_lookup_insert_eq by done;
      eexists; (split; [reflexivity|]); simpl; auto.
  - simpl. rewrite list_lookup_insert_eq by done.
    eexists; split; [reflexivity|]. simpl. eauto.
  - simpl. rewrite list_lookup_insert_eq by done.
    eexists; split; [reflexivity|]. simpl. auto.
Qed.

Lemma failed_answers (r : Result) (pc : Pc) : answers r (failed pc).
Proof. destruct pc; simpl; eauto 6. Qed.

Lemma step_answers (r : Result) (st : State) (a : Action) (k : nat) (t : Task) :
  tasks st !! k = Some t → answers r t →
  ∃ t', tasks (step cfg st a) !! k = Some t' ∧ answers r t'.
Proof.
  intros Hk Hans.
  destruct (step_task cfg st a k t Hk)
    as [Hsame|(pc & -> & [[-> Hexec]|[[-> Hfail]|[-> Hcrash]]])].
  - by exists t.
  - rewrite Hexec. by apply exec_answers.
  - exists (failed pc). split; [done|apply failed_answers].
  - by exists Crashed.
Qed.

Lemma run_answers (r : Result) (acts : list Action) (st : State) (k : nat)
    (t : Task) :
  tasks st !! k = Some t → answers r t →
  ∃ t', tasks (run cfg acts st) !! k = Some t' ∧ answers r t'.
Proof.
  revert st t. induction acts as [|a acts IH]; intros st t Hk Hans;
    [by exists t|].
  simpl. destruct (step_answers r st a k t Hk Hans) as (t' & Hk' & Hans').
  by eapply IH.
Qed.

(** ** A task served without interruption *)

Lemma drive_S (k n : nat) (st : State) :
  drive cfg k (S n) st = drive cfg k n (step cfg st (Run k)).
Proof. reflexivity. Qed.


Lemma drive_finished (k n : nat) (st : State) (r : Result) :
  tasks st !! k = Some (Finished r) → drive cfg k n st = st.
Proof.
  intros Hk. induction n as [|n IH]; [done|].
  rewrite drive_S. simpl. by rewrite Hk.
Qed.




End Answers.

Lemma scenarioSlots_fresh : freshRegistry scenarioSlots.
Proof.
  intros slotId s Hs. unfold scenarioSlots in Hs.
  apply lookup_singleton_Some in Hs as [_ <-]. simpl. lia.
Defined.

(** ** Capacity invariant *)

(** C1: from a fresh registry, after any sequence of actions (calls of
    claim, confirm, cancel and of the queue operations, scans of the
    Scheduler, of the Reconciliation Sweep and of the completion job, single
    store operations of any task in any interleaving, store failures, deaths
    of tasks, advances of the clock, blocking of slots) and for every slot of
    the registry: the CONFIRMED plus RESERVED Booking Attempts on the slot
    number at most its capacity, and its [bookedCount] lies between 0 and
    the capacity. *)
Theorem capacity_invariant (cfg : Config) (t0 : Z) (slots : gmap nat Slot)
    (acts : list Action) (slotId : nat) (s : Slot) :
  freshRegistry slots →
  getSlot slotId (run cfg acts (initial t0 slots)) = Some s →
  (Z.of_nat (active slotId (bookings (run cfg acts (initial t0 slots))))
     ≤ capacity s)%Z ∧
  (0 ≤ bookedCount s ≤ capacity s)%Z.
Proof.
  intros Hfresh Hs.
  assert (accounted (run cfg acts (initial t0 slots))) as Hacc
    by by apply run_accounted, initial_accounted.
  destruct (Hacc slotId s Hs) as [Hact Hcap]. lia.
Qed.

Lemma capacity_invariant_witness :
  let st := run scenarioConfig scenarioB (initial 0 scenarioSlots) in
  let s := {| startTime := 100; endTime := 200; capacity := 1;
              bookedCount := 1; blocked := false |} in
  freshRegistry scenarioSlots ∧
  getSlot 7 st = Some s ∧
  active 7 (bookings st) = 1 ∧
  (Z.of_nat (active 7 (bookings st)) ≤ capacity s)%Z ∧
  (0 ≤ bookedCount s ≤ capacity s)%Z.
Proof.
  split; [exact scenarioSlots_fresh|].
  split; [vm_compute; reflexivity|].
  split; [vm_compute; reflexivity|].
  apply (capacity_invariant scenarioConfig 0 scenarioSlots scenarioB 7).
  - exact scenarioSlots_fresh.
  - vm_compute. reflexivity.
Defined.

(** ** Terminal immutability *)

Lemma exec_stores_terminal (cfg : Config) (st : State) (i : nat)
    (b : Booking.t) (acts : list Action) (k : nat) (pc : Pc) :
  bookings st !! i = Some b →
  BookingStatus.terminal (Booking.status b) = true →
  tasks (run cfg acts st) !! k = Some (Running pc) →
  targets pc = Some i →
  tasks (step cfg (run cfg acts st) (Run k)) !! k =
    Some (Finished InvalidTransition) ∧
  stores (step cfg (run cfg acts st) (Run k)) = stores (run cfg acts st).
Proof.
  intros Hi Hterm Hk Htarget. simpl. rewrite Hk.
  apply (exec_terminal cfg k pc _ i b); [done|done| |done].
  by apply run_terminal.
Qed.

(** What becomes of a call to confirm or cancel a terminal attempt. *)
Lemma terminal_call_fate (cfg : Config) (acts : list Action) (st : State)
    (i k : nat) (b : Booking.t) (pc : Pc) :
  bookings st !! i = Some b →
  BookingStatus.terminal (Booking.status b) = true →
  targets pc = Some i → failed pc = Finished ServiceUnavailable →
  tasks st !! k = Some (Running pc) ∨
  tasks st !! k = Some (Finished InvalidTransition) ∨
  tasks st !! k = Some (Finished ServiceUnavailable) ∨
  tasks st !! k = Some Crashed →
  tasks (run cfg acts st) !! k = Some (Running pc) ∨
  tasks (run cfg acts st) !! k = Some (Finished InvalidTransition) ∨
  tasks (run cfg acts st) !! k = Some (Finished ServiceUnavailable) ∨
  tasks (run cfg acts st) !! k = Some Crashed.
Proof.
  intros Hi Hterm Htarget Hfailed. revert st Hi.
  induction acts as [|a acts IH]; intros st Hi Hk; [done|].
  simpl. apply IH; [by apply step_terminal|].
  assert (∃ t, tasks st !! k = Some t) as [t Ht]
    by (destruct Hk as [?|[?|[?|?]]]; eauto).
  destruct (step_task cfg st a k t Ht)
    as [Hsame|(pc' & -> & [[-> Hexec]|[[-> Hfail]|[-> Hcrash]]])].
  - rewrite Hsame, <- Ht. exact Hk.
  - assert (pc' = pc) as -> by (destruct Hk as [?|[?|[?|?]]]; congruence).
    right; left. rewrite Hexec.
    by apply (exec_terminal cfg k pc st i b).
  - assert (pc' = pc) as -> by (destruct Hk as [?|[?|[?|?]]]; congruence).
    right; right; left. by rewrite Hfail, Hfailed.
  - by right; right; right.
Qed.

(** C2: an attempt that is EXPIRED, CANCELLED or COMPLETED stays as it
    is whatever happens next; any task whose next store operation attempts
    one of its transitions (the validation or the guarded update of confirm
    and cancel, the forced expiration, the completion) is answered
    InvalidTransition and changes no store; and a confirm or cancel called
    on it is never accepted: under any interleaving the call is still
    waiting for its first operation, answered InvalidTransition, stopped by
    an unavailable store, or dead, and served at once it is answered
    InvalidTransition with every store as before. *)
Theorem terminal_immutable (cfg : Config) (st : State) (bookingId : nat)
    (b : Booking.t) :
  bookings st !! bookingId = Some b →
  BookingStatus.terminal (Booking.status b) = true →
  (∀ acts, bookings (run cfg acts st) !! bookingId = Some b) ∧
  (∀ acts k pc,
     tasks (run cfg acts st) !! k = Some (Running pc) →
     targets pc = Some bookingId →
     tasks (step cfg (run cfg acts st) (Run k)) !! k =
       Some (Finished InvalidTransition) ∧
     stores (step cfg (run cfg acts st) (Run k)) = stores (run cfg acts st)) ∧
  (∀ op acts,
     (∃ v, op = OpConfirm bookingId v) ∨
     (∃ actor v, op = OpCancel bookingId actor v) →
     let k := length (tasks st) in
     let called := step cfg st (Call op) in
     (tasks (run cfg acts called) !! k = Some (Running (entry op)) ∨
      tasks (run cfg acts called) !! k = Some (Finished InvalidTransition) ∨
      tasks (run cfg acts called) !! k = Some (Finished ServiceUnavailable) ∨
      tasks (run cfg acts called) !! k = Some Crashed) ∧
     tasks (drive cfg k 1 called) !! k = Some (Finished InvalidTransition) ∧
     stores (drive cfg k 1 called) = stores st).
Proof.
  intros Hi Hterm. split; [intros acts; by apply run_terminal|].
  split; [intros acts k pc; by apply (exec_stores_terminal cfg st bookingId b)|].
  intros op acts Hop k called.
  assert (tasks called !! k = Some (Running (entry op))) as Hk.
  { subst called k. simpl. rewrite lookup_app_r by done.
    by rewrite Nat.sub_diag. }
  assert (targets (entry op) = Some bookingId ∧
          failed (entry op) = Finished ServiceUnavailable) as [Htarget Hfailed]
    by (destruct Hop as [[v ->]|(actor & v & ->)]; done).
  assert (bookings called !! bookingId = Some b) as Hi'
    by by apply step_terminal.
  assert (stores called = stores st) as Hstores by done.
  clearbody called. split.
  - apply (terminal_call_fate cfg acts called bookingId k b (entry op));
      auto.
  - rewrite <- Hstores. unfold drive. simpl. rewrite Hk.
    by apply (exec_terminal cfg k (entry op) called bookingId b).
Qed.

Lemma terminal_immutable_witness :
  let st := run scenarioConfig scenarioB (initial 0 scenarioSlots) in
  let b := expired scenarioAttempt in
  bookings st !! 0 = Some b ∧
  BookingStatus.terminal (Booking.status b) = true ∧
  tasks (drive scenarioConfig 3 1 (step scenarioConfig st (Call (OpConfirm 0 1))))
    !! 3 = Some (Finished InvalidTransition) ∧
  tasks (drive scenarioConfig 3 1
           (step scenarioConfig st (Call (OpCancel 0 1 1))))
    !! 3 = Some (Finished InvalidTransition) ∧
  bookings (run scenarioConfig [Call (OpCancel 0 1 1); Run 3; Scan; Sweep]
              st) !! 0 = Some b.
Proof.
  intros st b.
  assert (bookings st !! 0 = Some b) as Hb by (vm_compute; reflexivity).
  assert (BookingStatus.terminal (Booking.status b) = true) as Hterm
    by reflexivity.
  destruct (terminal_immutable scenarioConfig st 0 b Hb Hterm)
    as (Hstay & _ & Hcall).
  split; [exact Hb|]. split; [exact Hterm|].
  split; [|split].
  - apply (Hcall (OpConfirm 0 1) []). left. by exists 1.
  - apply (Hcall (OpCancel 0 1 1) []). right. by exists 1, 1.
  - apply Hstay.
Defined.

(** ** Uniqueness and idempotent claim *)

Lemma claim_returns_attempt (cfg : Config) (st : State) (k bid : nat)
    (b : Booking.t) (pc : Pc) :
  unique (bookings st) → grounded st →
  bookings st !! bid = Some b →
  BookingStatus.terminal (Booking.status b) = false →
  pc = ClaimLoad Client (Booking.userId b) (Booking.slotId b) ∨
  pc = ClaimCreate Client (Booking.userId b) (Booking.slotId b) →
  tasks st !! k = Some (Running pc) →
  tasks (exec cfg k pc st) !! k =
    Some (Finished (Reserved bid (Booking.expiresAt b))) ∧
  stores (exec cfg k pc st) = stores st.
Proof.
  intros Hu [Hg _] Hb Hlive Hpc Hk.
  assert (k < length (tasks st)) as Hlen by by eapply lookup_lt_Some.
  pose proof (findAttempt_unique (bookings st) bid b Hu Hb Hlive) as Hfind.
  destruct (Hg bid b Hb) as [s Hs].
  destruct Hpc as [->| ->]; simpl; unfold getSlot; rewrite ?Hs, Hfind; simpl;
    by rewrite list_lookup_insert_eq.
Qed.

(** C3: in every state reached from the start, the Booking Attempt table
    holds at most one non-terminal attempt per user and slot; and while a
    user has a non-terminal attempt on a slot, a claim of that user for that
    slot which performs its load (or, having found none before, is about to
    create one) is answered Reserved with the [bookingId] and the
    [expiresAt] of that attempt and changes no store; so is a claim called
    and served at once. *)
Theorem claim_idempotent (cfg : Config) (t0 : Z) (slots : gmap nat Slot)
    (acts : list Action) (bookingId : nat) (b : Booking.t) :
  let st := run cfg acts (initial t0 slots) in
  bookings st !! bookingId = Some b →
  BookingStatus.terminal (Booking.status b) = false →
  unique (bookings st) ∧
  (∀ j bj, bookings st !! j = Some bj →
           Booking.userId bj = Booking.userId b →
           Booking.slotId bj = Booking.slotId b →
           BookingStatus.terminal (Booking.status bj) = false →
           j = bookingId) ∧
  (∀ k pc,
     pc = ClaimLoad Client (Booking.userId b) (Booking.slotId b) ∨
     pc = ClaimCreate Client (Booking.userId b) (Booking.slotId b) →
     tasks st !! k = Some (Running pc) →
     tasks (step cfg st (Run k)) !! k =
       Some (Finished (Reserved bookingId (Booking.expiresAt b))) ∧
     stores (step cfg st (Run k)) = stores st) ∧
  (let k := length (tasks st) in
   let called :=
     step cfg st (Call (OpClaim (Booking.userId b) (Booking.slotId b))) in
   tasks (drive cfg k 1 called) !! k =
     Some (Finished (Reserved bookingId (Booking.expiresAt b))) ∧
   stores (drive cfg k 1 called) = stores st).
Proof.
  intros st Hb Hlive.
  assert (unique (bookings st)) as Hu
    by (apply run_unique; simpl; apply unique_nil).
  assert (grounded st) as Hg by apply run_grounded, initial_grounded.
  split; [exact Hu|]. split; [|split].
  - intros j bj Hj Hus Hsl Hlj. by apply (Hu j bookingId bj b).
  - intros k pc Hpc Hk. simpl. rewrite Hk.
    by apply claim_returns_attempt.
  - intros k called.
    assert (tasks called !! k =
              Some (Running (ClaimLoad Client (Booking.userId b)
                               (Booking.slotId b)))) as Hk.
    { subst called k. simpl. rewrite lookup_app_r by done.
      by rewrite Nat.sub_diag. }
    assert (stores called = stores st) as Hstores by done.
    assert (unique (bookings called)) as Hu' by done.
    assert (grounded called) as Hg' by by apply step_grounded.
    assert (bookings called !! bookingId = Some b) as Hb' by done.
    clearbody called. rewrite <- Hstores. unfold drive. simpl. rewrite Hk.
    apply claim_returns_attempt; auto.
Qed.

Lemma claim_idempotent_witness :
  let st := run scenarioConfig scenarioAgain (initial 0 scenarioSlots) in
  bookings st !! 0 = Some scenarioAttempt ∧
  tasks st !! 2 = Some (Running (ClaimLoad Client 1 7)) ∧
  tasks (step scenarioConfig st (Run 2)) !! 2 =
    Some (Finished (Reserved 0 2)) ∧
  stores (step scenarioConfig st (Run 2)) = stores st.
Proof.
  intros st.
  assert (bookings st !! 0 = Some scenarioAttempt) as Hb
    by (vm_compute; reflexivity).
  assert (tasks st !! 2 = Some (Running (ClaimLoad Client 1 7))) as Hk
    by (vm_compute; reflexivity).
  split; [exact Hb|]. split; [exact Hk|].
  destruct (claim_idempotent scenarioConfig 0 scenarioSlots scenarioAgain 0
              scenarioAttempt Hb eq_refl) as (_ & _ & Hclaim & _).
  apply (Hclaim 2 (ClaimLoad Client 1 7)); [by left|exact Hk].
Defined.

(** ** Contention *)







(** ** Confirmation after the TTL *)







(** A confirm's validation lets the confirmation go on only before the
    expiry of a RESERVED attempt. *)
Lemma confirm_only_before_expiry (cfg : Config) (st : State) (k bid v : nat) :
  tasks st !! k = Some (Running (ConfirmLoad bid v)) →
  tasks (step cfg st (Run k)) !! k = Some (Running (ConfirmUpdate bid v)) →
  ∃ b, bookings st !! bid = Some b ∧
       BookingStatus.reserved (Booking.status b) = true ∧
       (clock st < Booking.expiresAt b)%Z.
Proof.
  intros Hk. assert (k < length (tasks st)) as Hlen by by eapply lookup_lt_Some.
  simpl. rewrite Hk. simpl.
  destruct (bookings st !! bid) as [b|];
    [|simpl; by rewrite list_lookup_insert_eq].
  destruct (BookingStatus.reserved (Booking.status b)) eqn:Hres; simpl;
    [|by rewrite list_lookup_insert_eq].
  case_bool_decide as Hexp; simpl; rewrite list_lookup_insert_eq by done;
    [done|]. intros _. exists b. split; [done|]. split; [done|lia].
Qed.



(** ** Promotion in arrival order *)



End CoreFacts.

(** * Further properties of the services and handlers *)

(** ** SlotService: lookups after additions *)

(** X1: a lookup after [addSlot name]: the index just filled answers
    [name], or the not-found text when [name] is empty; every other id,
    integral or not, answers what it answered before the call. *)
Theorem getSlotById_after_addSlot (this : SlotService.t) (name : string)
    (id : JS.number) :
  SlotService.getSlotById (SlotService.addSlot this name).2 id =
    match id with
    | JS.Integral z =>
        if decide (z = Z.of_nat (length (SlotService.getAllSlots this)))
        then (if decide (name = "") then "Slot not found" else name)
        else SlotService.getSlotById this id
    | JS.NonIntegral => SlotService.getSlotById this id
    end.
Proof.
  rewrite !getSlotById_cases. unfold SlotService.getAllSlots.
  destruct id as [z|]; simpl; [|reflexivity].
  destruct (decide (0 ≤ z)%Z) as [Hz|Hz].
  - case_decide as Heq.
    + subst z. rewrite Nat2Z.id, lookup_app_r by lia.
      by rewrite Nat.sub_diag.
    + destruct (decide (Z.to_nat z < length (SlotService.slots this))) as [Hlt|Hge].
      * by rewrite lookup_app_l.
      * rewrite !lookup_ge_None_2; [done|lia|].
        rewrite length_app. simpl. lia.
  - by rewrite decide_False by lia.
Qed.

(** X2: an id that names no index below the length of the list (a
    negative number, a fraction, an index past the end) answers the
    not-found text. *)
Theorem getSlotById_out_of_range (this : SlotService.t) (id : JS.number) :
  (∀ i : nat, id = JS.Integral (Z.of_nat i) →
              length (SlotService.getAllSlots this) ≤ i) →
  SlotService.getSlotById this id = "Slot not found".
Proof.
  intros Hout. rewrite getSlotById_cases.
  destruct (JS.index (SlotService.slots this) id) as [s|] eqn:Hid; [|done].
  apply index_Some in Hid as (z & -> & Hz & Hs).
  apply lookup_lt_Some in Hs.
  specialize (Hout (Z.to_nat z)). rewrite Z2Nat.id in Hout by done.
  specialize (Hout eq_refl). unfold SlotService.getAllSlots in Hout. lia.
Qed.

Lemma getSlotById_out_of_range_witness :
  (∀ i : nat, JS.Integral (-1) = JS.Integral (Z.of_nat i) →
              length (SlotService.getAllSlots SlotService.new) ≤ i) ∧
  SlotService.getSlotById SlotService.new (JS.Integral (-1)) =
    "Slot not found".
Proof.
  assert (∀ i : nat, JS.Integral (-1) = JS.Integral (Z.of_nat i) →
            length (SlotService.getAllSlots SlotService.new) ≤ i) as Hout.
  { intros i [= Hi]. lia. }
  split; [exact Hout|].
  exact (getSlotById_out_of_range SlotService.new (JS.Integral (-1)) Hout).
Defined.

(** X3: [getSlotById] never answers the empty string, whatever the list
    holds and whatever the id. *)
Theorem getSlotById_never_empty (this : SlotService.t) (id : JS.number) :
  SlotService.getSlotById this id ≠ "".
Proof.
  rewrite getSlotById_cases.
  destruct (JS.index (SlotService.slots this) id) as [s|]; [|done].
  by case_decide.
Qed.

(** X4: an answer of [getSlotById] other than the not-found text is the
    name stored at that very index: the lookup makes up no name. *)
Theorem getSlotById_sound (this : SlotService.t) (id : JS.number) :
  SlotService.getSlotById this id = "Slot not found" ∨
  ∃ i : nat, id = JS.Integral (Z.of_nat i) ∧
             SlotService.getAllSlots this !! i =
               Some (SlotService.getSlotById this id).
Proof.
  rewrite getSlotById_cases.
  destruct (JS.index (SlotService.slots this) id) as [s|] eqn:Hid; [|by left].
  case_decide; [by left|]. right.
  apply index_Some in Hid as (z & -> & Hz & Hs).
  exists (Z.to_nat z). by rewrite Z2Nat.id.
Qed.

(** X5: names added one after the other end up, in that order, behind
    what the list held: a run of [addSlot] calls is one append. *)
Theorem addSlot_sequence (this : SlotService.t) (names : list string) :
  SlotService.getAllSlots
    (foldl (λ s name, (SlotService.addSlot s name).2) this names) =
  SlotService.getAllSlots this ++ names.
Proof.
  revert this. induction names as [|name names IH]; intros this; simpl.
  - by rewrite app_nil_r.
  - rewrite IH. unfold SlotService.getAllSlots. simpl.
    by rewrite <- app_assoc.
Qed.

(** X6: [addSlot] checks nothing about the name: a name the list already
    holds is stored once more, so its number of occurrences always grows
    by one. *)
Theorem addSlot_keeps_duplicates (this : SlotService.t) (name : string) :
  length (filter (λ s, s = name)
            (SlotService.getAllSlots (SlotService.addSlot this name).2)) =
  S (length (filter (λ s, s = name) (SlotService.getAllSlots this))).
Proof.
  unfold SlotService.getAllSlots. simpl.
  rewrite filter_app, length_app, filter_cons_True by done. simpl. lia.
Qed.

(** X7: the three slots of the field initialiser stay at ids 0, 1 and 2
    whatever names are added to a new service, and the list is three longer
    than the names added. *)
Theorem seeded_slots_persist (names : list string) :
  let this := foldl (λ s name, (SlotService.addSlot s name).2)
                SlotService.new names in
  SlotService.getSlotById this (JS.Integral 0) = "Slot 1" ∧
  SlotService.getSlotById this (JS.Integral 1) = "Slot 2" ∧
  SlotService.getSlotById this (JS.Integral 2) = "Slot 3" ∧
  length (SlotService.getAllSlots this) = 3 + length names.
Proof.
  intros this. pose proof (addSlot_sequence SlotService.new names) as Hall.
  fold this in Hall. unfold SlotService.getSlotById.
  unfold SlotService.getAllSlots in *. rewrite Hall. repeat split.
Qed.

(** ** The handlers over a session *)

(** X8: the reply to each request of a session is the reply the same
    request gets from the application the session started from: no reply
    depends on the requests served before it. *)
Theorem replies_ignore_history (rs : list (Route * HttpRequest)) (app : App) :
  (serve rs app).1 = (λ p, (handle p.1 p.2 app).1) <$> rs.
Proof.
  induction rs as [|[r req] rs IH]; [reflexivity|].
  simpl. pose proof (handle_frame r req app) as Hh.
  destruct (handle r req app) as [reply app1]. simpl in Hh. subst app1.
  destruct (serve rs app) as [replies app2]. simpl in *. by f_equal.
Qed.

(** X9: [getSlots] answers the list the service holds and leaves it
    alone; after any session it still answers the list the application
    started with, which from boot is the three seeded slots: no route adds
    a slot. *)
Theorem getSlots_after_any_session (rs : list (Route * HttpRequest))
    (app : App) (req : HttpRequest) :
  handle GET_admin_slots req (serve rs app).2 =
    (Json (SlotService.getAllSlots (slotService app)), app) ∧
  (handle GET_admin_slots req (serve rs boot).2).1 =
    Json ["Slot 1"; "Slot 2"; "Slot 3"].
Proof.
  rewrite !serve_frame. by destruct app.
Qed.

(** X10: the two booking listings answer their fixed texts after any
    session, reservations included: nothing served before shows in them. *)
Theorem booking_listings_ignore_history (rs : list (Route * HttpRequest))
    (app : App) (req1 req2 : HttpRequest) :
  serve (rs ++ [(POST_bookings_reserve, req1); (GET_bookings, req1);
                (GET_bookings_my, req2)]) app =
    ((serve rs app).1 ++
       [Text "This action creates a new booking";
        Text "This action returns all bookings";
        Text "This action returns my bookings"], app).
Proof.
  rewrite (surjective_pairing (serve _ app)).
  rewrite serve_frame, serve_app. reflexivity.
Qed.
